(** * autofeedback-s: the test runner and its fuzzy search

    A shallow embedding of [src/fuzzySearch.ts] and [src/runner.ts].

    Conventions of the embedding.
    - A JavaScript string is the list of its code units ([jsstring]); the
      code units are restricted to the 8-bit range ([ascii]).
    - [s.charAt(i)] is the lookup [s !! i]; out of range it is [None], which
      stands for the empty string that [charAt] returns there.
    - A JavaScript array is a list; [arr[i]] is [arr !! i], and [None] stands
      for [undefined].
    - Scores and timeouts are JavaScript numbers in the source; they are
      exact rationals ([Q]) here.  Integer-valued numbers (indices, points,
      readings of the clock) are [nat] or [Z].  The scores that the search
      compares are given with the rounding of binary64 as well
      ([Binary64]).
    - A function that may fail to return (a [while] loop without exit, or a
      property read on [undefined]) has an [option] result; [None] means
      that the call does not return a value. *)

From Stdlib Require Import ZArith QArith Qpower Qabs Ascii String List Lia Lqa.
From stdpp Require Import base list strings.
Import ListNotations.

#[local] Close Scope Q_scope.
#[local] Open Scope nat_scope.

(** ** JavaScript strings *)

Definition jsstring : Type := list ascii.

Definition js (s : string) : jsstring := list_ascii_of_string s.

(** [s.charAt(i) === t.charAt(j)] *)
Definition charEq (c d : option ascii) : bool := bool_decide (c = d).

(** [s == t] on two strings *)
Definition strEq (s t : jsstring) : bool := bool_decide (s = t).

(** [s.slice(i, j)] for [0 <= i]: the code units from [i] up to, and not
    including, [j], clipped to the string. *)
Definition slice (s : jsstring) (i j : nat) : jsstring := take (j - i) (drop i s).

(** truthiness of an array element that holds a boolean: [undefined] is falsy *)
Definition truthy (b : option bool) : bool :=
  match b with
  | Some true => true
  | _ => false
  end.

Definition LF : ascii := "010"%char.
Definition CR : ascii := "013"%char.
Definition SP : ascii := " "%char.

(** [input.replace(/\r?\n/g, ' ')] *)
Fixpoint collapseLineBreaks (s : jsstring) : jsstring :=
  match s with
  | [] => []
  | c :: r =>
      if bool_decide (c = LF) then SP :: collapseLineBreaks r
      else
        match r with
        | d :: r' =>
            if bool_decide (c = CR) && bool_decide (d = LF)
            then SP :: collapseLineBreaks r'
            else c :: collapseLineBreaks r
        | [] => [c]
        end
  end.

(** ** fuzzySearch.ts *)

(** [toWindows]: the array of the windows of [size] code units over [input],
    or the input alone when it is shorter than [size]. *)
Definition toWindows (input : jsstring) (size : nat) : list jsstring :=
  if bool_decide (length input < size) then [input]
  else
    let lastWindow := length input - size in
    map (fun i => slice input i (i + size)) (seq 0 (S lastWindow)).

(** The state of the first loop of the similarity functions. *)
Record MatchState : Type := mkMatchState {
  str1Matches : list bool;
  str2Matches : list bool;
  matches : nat
}.

Section Jaro.

Variables str1 str2 : jsstring.

(** Max distance between characters to be considered matching *)
Variable maxDist : Z.

(** The inner [for (j ...)] loop at [i]: the first [j] of
    [max(0, i - maxDist) <= j < min(len2, i + maxDist + 1)] with an equal
    character that has not been matched yet, where the loop breaks. *)
Definition scanWindow (flags2 : list bool) (i : nat) : option nat :=
  let lo := Z.to_nat (Z.max 0 (Z.of_nat i - maxDist)) in
  let hi := Z.to_nat (Z.min (Z.of_nat (length str2)) (Z.of_nat i + maxDist + 1)) in
  find (fun j => charEq (str1 !! i) (str2 !! j) && negb (truthy (flags2 !! j)))
       (seq lo (hi - lo)).

(** One round of the outer [for (i ...)] loop. *)
Definition matchStep (st : MatchState) (i : nat) : MatchState :=
  match scanWindow (str2Matches st) i with
  | Some j =>
      {| str1Matches := <[i := true]> (str1Matches st);
         str2Matches := <[j := true]> (str2Matches st);
         matches := S (matches st) |}
  | None => st
  end.

Definition matchInit : MatchState :=
  {| str1Matches := replicate (length str1) false;
     str2Matches := replicate (length str2) false;
     matches := 0 |}.

Definition matchLoop : MatchState :=
  fold_left matchStep (seq 0 (length str1)) matchInit.

(** [while (!str2Matches[k]) k++]: [fuel] rounds at most.  Past the end of
    the array every read is [undefined], so with [S (length flags2)] rounds
    of fuel [None] is returned exactly when the loop never exits. *)
Fixpoint skipUnmatched (fuel : nat) (flags2 : list bool) (k : nat) : option nat :=
  match fuel with
  | 0 => None
  | S fuel' =>
      if truthy (flags2 !! k) then Some k
      else skipUnmatched fuel' flags2 (S k)
  end.

(** One round of the second [for (i ...)] loop, on the pair of [k] and
    [transpositions]. *)
Definition transStep (flags1 flags2 : list bool)
    (st : option (nat * nat)) (i : nat) : option (nat * nat) :=
  match st with
  | None => None
  | Some (k, transpositions) =>
      if truthy (flags1 !! i) then
        match skipUnmatched (S (length flags2)) flags2 k with
        | None => None
        | Some k' =>
            Some (S k',
                  if charEq (str1 !! i) (str2 !! k') then transpositions
                  else S transpositions)
        end
      else Some (k, transpositions)
  end.

Definition transLoop (flags1 flags2 : list bool) : option (nat * nat) :=
  fold_left (transStep flags1 flags2) (seq 0 (length str1)) (Some (0, 0)).

End Jaro.

Definition Qnat (n : nat) : Q := inject_Z (Z.of_nat n).

(** [(matches / len1 + matches / len2 + (matches - transpositions) / matches) / 3.0]
    after [transpositions /= 2]; [t] is the count before the halving. *)
Definition jaroFormula (m t len1 len2 : nat) : Q :=
  let transpositions := (Qnat t / 2)%Q in
  ((Qnat m / Qnat len1 + Qnat m / Qnat len2
    + (Qnat m - transpositions) / Qnat m) / 3)%Q.

(** [Math.floor(Math.max(len1, len2) / 2) - 1] *)
Definition maxDistOf (len1 len2 : nat) : Z :=
  (Z.of_nat (Nat.max len1 len2) / 2 - 1)%Z.

(** The body that [jaroSimilarity] and [jaroWinklerSimilarity] share, after
    the test [str1 == str2], with the half-width of the scan as an argument:
    [None] when the call does not return, [Some None] when no match was
    found, and the number of matches, the transposition count before the
    halving and the Jaro score otherwise. *)
Definition jaroCore (maxDist : Z) (str1 str2 : jsstring)
    : option (option (nat * nat * Q)) :=
  let len1 := length str1 in
  let len2 := length str2 in
  let st := matchLoop str1 str2 maxDist in
  if matches st =? 0 then Some None
  else
    match transLoop str1 str2 (str1Matches st) (str2Matches st) with
    | None => None
    | Some (_, t) => Some (Some (matches st, t, jaroFormula (matches st) t len1 len2))
    end.

(** [prefixLength] of [jaroWinklerSimilarity]: the loop
    [for (i = 0; i < Math.min(len1, len2, 4); i++)
       if (str1.charAt(i) == str2.charAt(i)) prefixLength++]. *)
Definition prefixLength (str1 str2 : jsstring) : nat :=
  fold_left
    (fun n i => if charEq (str1 !! i) (str2 !! i) then S n else n)
    (seq 0 (Nat.min (Nat.min (length str1) (length str2)) 4)) 0.

(** [windows.reduce((prev, curr, index) => ..., firstDistance)[0]] and the
    final [windows[closestIndex]], for a similarity function [sim]. *)
Section Search.

Variable sim : jsstring -> jsstring -> option Q.

Definition reduceStep (toFind : jsstring)
    (prev : option (nat * Q)) (ic : nat * jsstring) : option (nat * Q) :=
  match prev with
  | None => None
  | Some p =>
      match sim (snd ic) toFind with
      | None => None
      | Some distance =>
          Some (match (snd p ?= distance)%Q with
                | Lt => (fst ic, distance)
                | _ => p
                end)
      end
  end.

Definition closest (windows : list jsstring) (toFind : jsstring)
    : option (nat * Q) :=
  match windows !! 0 with
  | None => None
  | Some w0 =>
      match sim w0 toFind with
      | None => None
      | Some d0 =>
          fold_left (reduceStep toFind)
                    (combine (seq 0 (length windows)) windows)
                    (Some (0, d0))
      end
  end.

Definition fuzzySearchWith (input toFind : jsstring) : option jsstring :=
  let windows := toWindows (collapseLineBreaks input) (length toFind) in
  match closest windows toFind with
  | None => None
  | Some (closestIndex, _) => windows !! closestIndex
  end.

End Search.

(** The first variant of [fuzzySearch.ts]: the Jaro similarity. *)
Module Jaro.

Definition jaroSimilarityAt (maxDist : Z) (str1 str2 : jsstring) : option Q :=
  if strEq str1 str2 then Some 1%Q
  else
    match jaroCore maxDist str1 str2 with
    | None => None
    | Some None => Some 0%Q
    | Some (Some (_, _, jaro)) => Some jaro
    end.

Definition jaroSimilarity (str1 str2 : jsstring) : option Q :=
  jaroSimilarityAt (maxDistOf (length str1) (length str2)) str1 str2.

Definition fuzzySearch : jsstring -> jsstring -> option jsstring :=
  fuzzySearchWith jaroSimilarity.

End Jaro.

(** The second variant of [fuzzySearch.ts]: the Jaro-Winkler similarity. *)
Module JaroWinkler.

Definition jaroWinklerSimilarityAt (maxDist : Z) (str1 str2 : jsstring)
    : option Q :=
  if strEq str1 str2 then Some 1%Q
  else
    match jaroCore maxDist str1 str2 with
    | None => None
    | Some None => Some 0%Q
    | Some (Some (_, _, jaro)) =>
        Some (jaro + Qnat (prefixLength str1 str2) * (1 # 4) * (1 - jaro))%Q
    end.

Definition jaroWinklerSimilarity (str1 str2 : jsstring) : option Q :=
  jaroWinklerSimilarityAt (maxDistOf (length str1) (length str2)) str1 str2.

Definition fuzzySearch : jsstring -> jsstring -> option jsstring :=
  fuzzySearchWith jaroWinklerSimilarity.

End JaroWinkler.

(** ** The scores as numbers of JavaScript *)

(** A number of JavaScript is a binary64 floating-point number, and each of
    [+], [-], [*] and [/] returns the binary64 number nearest to the exact
    result, the one with the even significand when two are equally near.  A
    finite binary64 number is a rational, and is modelled as that rational;
    the infinities and NaN do not arise in the scores, where no divisor is
    0 ([jaroCore_counts]) and no value exceeds the length of a string. *)

(** The integer nearest to [num / den], the even one of two equally near;
    [den] is positive. *)
Definition roundHalfEven (num den : Z) : Z :=
  let q := (num / den)%Z in
  match (2 * (num mod den) ?= den)%Z with
  | Lt => q
  | Gt => (q + 1)%Z
  | Eq => if Z.even q then q else (q + 1)%Z
  end.

(** The exponent [e] of the last place of the binary64 numbers around the
    positive rational [n / d]: the least [e] not below -1074 with
    [n / d < 2 ^ (e + 53)], so that the significand [n / d / 2 ^ e] has at
    most 53 bits. *)
Definition exponent64 (n d : Z) : Z :=
  let l := (Z.log2 n - Z.log2 d)%Z in
  let reaches :=
    if (0 <=? l)%Z then (d * 2 ^ l <=? n)%Z else (d <=? n * 2 ^ (- l))%Z in
  Z.max (if reaches then l - 52 else l - 53)%Z (-1074)%Z.

(** The binary64 number nearest to [x]. *)
Definition round64 (x : Q) : Q :=
  let n := Z.abs (Qnum x) in
  let d := Zpos (Qden x) in
  if (n =? 0)%Z then 0%Q
  else
    let e := exponent64 n d in
    let significand :=
      if (0 <=? e)%Z then roundHalfEven n (d * 2 ^ e)
      else roundHalfEven (n * 2 ^ (- e)) d in
    let magnitude :=
      if (0 <=? e)%Z then inject_Z (significand * 2 ^ e)
      else Qmake significand (Z.to_pos (2 ^ (- e))) in
    if (Qnum x <? 0)%Z then (- magnitude)%Q else magnitude.

Definition add64 (x y : Q) : Q := round64 (x + y).
Definition sub64 (x y : Q) : Q := round64 (x - y).
Definition mul64 (x y : Q) : Q := round64 (x * y).
Definition div64 (x y : Q) : Q := round64 (x / y).

(** The two variants of [fuzzySearch.ts] with the arithmetic of JavaScript:
    the loops are those of [jaroCore], of which the counts of matches and of
    transpositions are taken, and every operation on the score rounds. *)
Module Binary64.

(** [(matches / len1 + matches / len2 + (matches - transpositions) / matches) / 3.0]
    after [transpositions /= 2]; [t] is the count before the halving. *)
Definition jaroFormula (m t len1 len2 : nat) : Q :=
  let transpositions := div64 (Qnat t) 2 in
  div64 (add64 (add64 (div64 (Qnat m) (Qnat len1)) (div64 (Qnat m) (Qnat len2)))
               (div64 (sub64 (Qnat m) transpositions) (Qnat m)))
        3.

Definition jaroSimilarity (str1 str2 : jsstring) : option Q :=
  if strEq str1 str2 then Some 1%Q
  else
    match jaroCore (maxDistOf (length str1) (length str2)) str1 str2 with
    | None => None
    | Some None => Some 0%Q
    | Some (Some (m, t, _)) => Some (jaroFormula m t (length str1) (length str2))
    end.

(** [jaro + prefixLength * 0.25 * (1 - jaro)] *)
Definition jaroWinklerSimilarity (str1 str2 : jsstring) : option Q :=
  if strEq str1 str2 then Some 1%Q
  else
    match jaroCore (maxDistOf (length str1) (length str2)) str1 str2 with
    | None => None
    | Some None => Some 0%Q
    | Some (Some (m, t, _)) =>
        let jaro := jaroFormula m t (length str1) (length str2) in
        Some (add64 jaro
                (mul64 (mul64 (Qnat (prefixLength str1 str2)) (1 # 4))
                       (sub64 1 jaro)))
    end.

(** [fuzzySearch] of the first variant, with [jaroSimilarity]. *)
Definition fuzzySearch : jsstring -> jsstring -> option jsstring :=
  fuzzySearchWith jaroSimilarity.

(** [fuzzySearch] of the second variant, with [jaroWinklerSimilarity]. *)
Definition fuzzySearchJaroWinkler : jsstring -> jsstring -> option jsstring :=
  fuzzySearchWith jaroWinklerSimilarity.

End Binary64.

(** ** runner.ts *)

Definition isWhiteSpace (c : ascii) : bool :=
  let n := nat_of_ascii c in
  (9 <=? n) && (n <=? 13) || (n =? 32) || (n =? 160).

Fixpoint trimStart (s : jsstring) : jsstring :=
  match s with
  | c :: r => if isWhiteSpace c then trimStart r else s
  | [] => []
  end.

Definition trimEnd (s : jsstring) : jsstring := rev (trimStart (rev s)).

(** [text.trim()] *)
Definition trim (s : jsstring) : jsstring := trimEnd (trimStart s).

(** [text.replace(/\r\n/gi, '\n')] *)
Fixpoint replaceCRLF (s : jsstring) : jsstring :=
  match s with
  | [] => []
  | c :: r =>
      match r with
      | d :: r' =>
          if bool_decide (c = CR) && bool_decide (d = LF)
          then LF :: replaceCRLF r'
          else c :: replaceCRLF r
      | [] => [c]
      end
  end.

Definition normalizeLineEndings (text : jsstring) : jsstring :=
  trim (replaceCRLF text).

Fixpoint startsWith (s p : jsstring) : bool :=
  match p, s with
  | [], _ => true
  | _ :: _, [] => false
  | c :: p', d :: s' => bool_decide (c = d) && startsWith s' p'
  end.

(** [s.includes(p)] *)
Fixpoint includes (s p : jsstring) : bool :=
  startsWith s p ||
  match s with
  | [] => false
  | _ :: s' => includes s' p
  end.

Inductive TestComparison : Type := Exact | Included | Regex.

(** The [Test] interface.  An optional field, or one that the JSON file of
    the tests leaves out, is [None]. *)
Record Test : Type := mkTest {
  name : jsstring;
  setup : option jsstring;
  run_ : jsstring;           (* the field [run] *)
  input : option jsstring;
  output : option jsstring;
  timeout : option Q;
  points : option Z;
  extra : option bool;
  comparison : option TestComparison
}.

(** [!s || s == ''] is the negation of [strTruthy s] *)
Definition strTruthy (s : option jsstring) : bool :=
  match s with
  | Some (_ :: _) => true
  | _ => false
  end.

(** truthiness of [test.timeout], a number of minutes that need not be whole *)
Definition minutesTruthy (n : option Q) : bool :=
  match n with
  | Some q => negb (Qeq_bool q 0)
  | None => false
  end.

Definition numTruthy (n : option Z) : bool :=
  match n with
  | Some z => negb (z =? 0)%Z
  | None => false
  end.

Definition boolTruthy (b : option bool) : bool :=
  match b with
  | Some true => true
  | _ => false
  end.

(** [s || ''] *)
Definition strOrEmpty (s : option jsstring) : jsstring :=
  match s with
  | Some t => t
  | None => []
  end.

(** What a rejected promise of the runner carries.  The rendered text of the
    messages is left out; the data that goes into it is kept. *)
Inductive Failure : Type :=
  (** [TestTimeoutError]: the timer of [waitForExit] fired first *)
  | TestTimeoutError (captured : jsstring) (timeoutMs : Q)
  (** [TestError]: exit with a code other than 0, or by a signal *)
  | TestExitError (captured : jsstring) (code : option Z) (signal : option jsstring)
  (** the [Error] of the child's ['error'] event *)
  | ChildError (captured message : jsstring)
  (** [TestError]: the output does not match in ['exact'] mode *)
  | ExactMismatch (testName actual expected : jsstring)
  (** [TestError]: the output did not match in ['included'] mode *)
  | IncludedMismatch (testName actual expected : jsstring)
  (** [TestOutputError]: the pattern did not match in ['regex'] mode *)
  | TestOutputError (testName pattern actual : jsstring)
  (** the [SyntaxError] of [new RegExp] *)
  | PatternError (pattern : jsstring).

Definition Result (A : Type) : Type := Failure + A.

(** What ends the wait of [waitForExit] first. *)
Inductive ChildEvent : Type :=
  | ExitEvent (code : option Z) (signal : option jsstring)
  | ErrorEvent (message : jsstring)
  | TimerFired.

(** The tally of [runAll] and what it reports at the end. *)
Record SuiteTally : Type := mkTally {
  earnedPoints : Z;          (* [points] *)
  availablePoints : Z;
  passed : nat;
  numtests : nat;
  hasPoints : bool;
  failed : bool;
  passing : list jsstring;
  failing : list jsstring
}.

Record Report : Type := mkReport {
  tally : SuiteTally;
  (** the [extraCreditPoints] of the line "You earned ... extra credit
      points", when it is logged *)
  extraCreditPoints : option Z;
  (** the two numbers of [core.setOutput('Points', ...)] *)
  pointsOutput : Z * Z
}.

Section Runner.

(** The operating system: what a spawned shell command does, and the
    clock of [process.hrtime]. *)
Variable World : Type.

(** [spawn w command stdin timeoutMs]: the output that the listeners on
    [stdout] and [stderr] have accumulated when the wait ends, what ends
    it, and the world afterwards. *)
Variable spawn : World -> jsstring -> option jsstring -> Q -> jsstring * ChildEvent * World.

(** Reading the clock of [process.hrtime]: the time in nanoseconds, and the
    world afterwards. *)
Variable hrtime : World -> Z * World.

(** [actual.match(new RegExp(pattern))] as a truth value; [None] when the
    pattern is malformed. *)
Variable regexMatch : jsstring -> jsstring -> option bool.

#[local] Open Scope Z_scope.

Definition waitForExit (captured : jsstring) (ev : ChildEvent) (timeoutMs : Q)
    : Result unit :=
  match ev with
  | TimerFired => inl (TestTimeoutError captured timeoutMs)
  | ExitEvent (Some 0%Z) _ => inr tt
  | ExitEvent code signal => inl (TestExitError captured code signal)
  | ErrorEvent message => inl (ChildError captured message)
  end.

Definition runSetup (w : World) (test : Test) (timeoutMs : Q)
    : Result unit * World :=
  if negb (strTruthy (setup test)) then (inr tt, w)
  else
    let '(captured, ev, w') := spawn w (strOrEmpty (setup test)) None timeoutMs in
    (waitForExit captured ev timeoutMs, w').

(** The [switch (test.comparison)] of [runCommand]. *)
Definition compareOutput (test : Test) (captured : jsstring) : Result jsstring :=
  let expected := normalizeLineEndings (strOrEmpty (output test)) in
  let actual := normalizeLineEndings captured in
  match comparison test with
  | Some Exact =>
      if negb (strEq actual expected)
      then inl (ExactMismatch (name test) actual expected)
      else inr captured
  | Some Regex =>
      match regexMatch (strOrEmpty (output test)) actual with
      | None => inl (PatternError (strOrEmpty (output test)))
      | Some false => inl (TestOutputError (name test) (strOrEmpty (output test)) actual)
      | Some true => inr captured
      end
  | _ =>
      (* The default comparison mode is 'included' *)
      if negb (includes actual expected)
      then inl (IncludedMismatch (name test) actual expected)
      else inr captured
  end.

Definition runCommand (w : World) (test : Test) (timeoutMs : Q)
    : Result jsstring * World :=
  let stdin := if strTruthy (input test) then input test else None in
  let '(captured, ev, w') := spawn w (run_ test) stdin timeoutMs in
  match waitForExit captured ev timeoutMs with
  | inl e => (inl e, w')
  | inr _ =>
      if negb (strTruthy (output test)) && negb (strTruthy (input test))
      then (inr captured, w')
      else (compareOutput test captured, w')
  end.

(** [(test.timeout || 1) * 60 * 1000 || 30000] *)
Definition effectiveTimeout (test : Test) : Q :=
  let minutes := if minutesTruthy (timeout test)
                 then match timeout test with Some q => q | None => 1%Q end
                 else 1%Q in
  let ms := (minutes * 60 * 1000)%Q in
  if Qeq_bool ms 0 then 30000%Q else ms.

(** [process.hrtime(start)]: the seconds and the nanoseconds from the
    reading [start] to the reading [stop] *)
Definition hrtimeDiff (start stop : Z) : Z * Z :=
  ((stop - start) / 1000000000, (stop - start) mod 1000000000).

(** [Math.floor(elapsed[0] * 1000 + elapsed[1] / 1000000)]: the first
    summand is whole, so the floor is that of the second. *)
Definition elapsedMs (elapsed : Z * Z) : Z :=
  fst elapsed * 1000 + snd elapsed / 1000000.

Definition run (w : World) (test : Test) : Result jsstring * World :=
  let timeoutMs := effectiveTimeout test in
  let '(start, w1) := hrtime w in
  match runSetup w1 test timeoutMs with
  | (inl e, w2) => (inl e, w2)
  | (inr _, w2) =>
      let '(stop, w3) := hrtime w2 in
      let elapsed := hrtimeDiff start stop in
      let timeoutMs' := (timeoutMs - inject_Z (elapsedMs elapsed))%Q in
      runCommand w3 test timeoutMs'
  end.

Definition tallyInit : SuiteTally :=
  {| earnedPoints := 0; availablePoints := 0; passed := 0%nat; numtests := 0%nat;
     hasPoints := false; failed := false; passing := []; failing := [] |}.

(** What one round of [for (const test of tests)] does to the tally: the
    [try] block up to the call of [run], then the rest of the [try] block
    when [run] has returned ([ok]) and the [catch] block when it has thrown. *)
Definition recordOutcome (t : SuiteTally) (test : Test) (ok : bool) : SuiteTally :=
  let pts := match points test with Some z => z | None => 0 end in
  let hasPoints' := hasPoints t || numTruthy (points test) in
  let available' :=
    if numTruthy (points test) && negb (boolTruthy (extra test))
    then availablePoints t + pts else availablePoints t in
  if ok then
    {| earnedPoints := if numTruthy (points test)
                       then earnedPoints t + pts else earnedPoints t;
       availablePoints := available';
       passed := S (passed t);
       numtests := S (numtests t);
       hasPoints := hasPoints';
       failed := failed t;
       passing := passing t ++ [name test];
       failing := failing t |}
  else
    {| earnedPoints := earnedPoints t;
       availablePoints := available';
       passed := passed t;
       numtests := S (numtests t);
       hasPoints := hasPoints';
       failed := if negb (boolTruthy (extra test)) then true else failed t;
       passing := passing t;
       failing := failing t ++ [name test] |}.

Definition isOk {A : Type} (r : Result A) : bool :=
  match r with
  | inr _ => true
  | inl _ => false
  end.

Definition runOne (st : SuiteTally * World) (test : Test) : SuiteTally * World :=
  let '(t, w) := st in
  let '(r, w') := run w test in
  (recordOutcome t test (isOk r), w').

Definition report (t : SuiteTally) : Report :=
  {| tally := t;
     extraCreditPoints :=
       if (availablePoints t <? earnedPoints t)
       then Some (1 * (earnedPoints t - availablePoints t)) else None;
     pointsOutput :=
       if hasPoints t then (earnedPoints t, availablePoints t)
       else (Z.of_nat (passed t), Z.of_nat (numtests t)) |}.

Definition runAll (w : World) (tests : list Test) : Report * World :=
  let '(t, w') := fold_left runOne tests (tallyInit, w) in
  (report t, w').

End Runner.

(** [test] with its [comparison] field set to [mode]. *)
Definition withComparison (test : Test) (mode : option TestComparison) : Test :=
  {| name := name test; setup := setup test; run_ := run_ test;
     input := input test; output := output test; timeout := timeout test;
     points := points test; extra := extra test; comparison := mode |}.

(** ** A world and tests for the examples *)

(** The world is the clock in nanoseconds.  A command takes one and a half
    seconds; [false] exits with code 1 and every other command with code 0;
    [echo Hello world] prints its words and a line break. *)
Definition demoSpawn (w : Z) (command : jsstring) (stdin : option jsstring)
    (timeoutMs : Q) : jsstring * ChildEvent * Z :=
  (if strEq command (js "echo Hello world")
   then js "Hello world" ++ [LF] else [],
   if strEq command (js "false")
   then ExitEvent (Some 1%Z) None else ExitEvent (Some 0%Z) None,
   (w + 1500000000)%Z).

Definition demoHrtime (w : Z) : Z * Z := (w, (w + 1000)%Z).

Definition demoRegex (pattern actual : jsstring) : option bool := Some true.

Definition demoTest (testName command : string) (pts : option Z)
    (isExtra : option bool) : Test :=
  {| name := js testName; setup := None; run_ := js command;
     input := None; output := None; timeout := None;
     points := pts; extra := isExtra; comparison := None |}.

Definition demoSuite : list Test :=
  [ demoTest "first" "false" (Some 10%Z) None;
    demoTest "second" "true" (Some 20%Z) None;
    demoTest "third" "true" (Some 30%Z) None;
    demoTest "bonus" "true" (Some 15%Z) (Some true) ].

Definition helloTest (mode : option TestComparison) : Test :=
  {| name := js "hello"; setup := Some (js "make"); run_ := js "echo Hello world";
     input := None; output := Some (js "Hello"); timeout := Some 2%Q;
     points := None; extra := None; comparison := mode |}.

Definition silentTest (mode : option TestComparison) : Test :=
  {| name := js "silent"; setup := None; run_ := js "echo Hello world";
     input := None; output := Some []; timeout := Some 0%Q;
     points := None; extra := None; comparison := mode |}.

Definition inputOnlyTest (mode : option TestComparison) : Test :=
  {| name := js "input only"; setup := None; run_ := js "echo Hello world";
     input := Some (js "42"); output := None; timeout := None;
     points := None; extra := None; comparison := mode |}.

(** ** The write to the standard input of the child *)

(** What becomes of [child.stdin.write(test.input); child.stdin.end()]: the
    child takes the text, or the stream emits ['error'] (EPIPE: the child has
    closed its end, or has ended, without reading). *)
Inductive StdinWrite : Type :=
  | InputTaken
  | BrokenPipe.

(** What becomes of a call: it settles, by returning or by throwing, or an
    exception that no [try] block sees ends the runner, before the call has
    settled or after. *)
Inductive Fate (A : Type) : Type :=
  | Settled (r : Result A)
  | RunnerDied.

Arguments Settled {A} r.
Arguments RunnerDied {A}.

(** [runCommand] with the write to [child.stdin].  [runCommand] puts no
    listener for ['error'] on [child.stdin], so that event is thrown from the
    event loop, outside the [try] blocks of [runCommand] and of [runAll],
    whatever the child does otherwise. *)
Module WithStdin.

Section Runner.

Variable World : Type.

(** As [spawn] above, with what became of the write of [stdin]; of no
    meaning where [stdin] is [None], as nothing is written then. *)
Variable spawn : World -> jsstring -> option jsstring -> Q
                 -> jsstring * ChildEvent * StdinWrite * World.

Variable regexMatch : jsstring -> jsstring -> option bool.

(** The child without the write. *)
Definition childOf (w : World) (command : jsstring) (stdin : option jsstring)
    (timeoutMs : Q) : jsstring * ChildEvent * World :=
  let '(captured, ev, _, w') := spawn w command stdin timeoutMs in
  (captured, ev, w').

Definition runCommand (w : World) (test : Test) (timeoutMs : Q)
    : Fate jsstring * World :=
  let stdin := if strTruthy (input test) then input test else None in
  let '(captured, ev, written, w') := spawn w (run_ test) stdin timeoutMs in
  match stdin, written with
  | Some _, BrokenPipe => (RunnerDied, w')
  | _, _ =>
      match waitForExit captured ev timeoutMs with
      | inl e => (Settled (inl e), w')
      | inr _ =>
          if negb (strTruthy (output test)) && negb (strTruthy (input test))
          then (Settled (inr captured), w')
          else (Settled (compareOutput regexMatch test captured), w')
      end
  end.

End Runner.

End WithStdin.

(** [demoSpawn] with the write: [cat] reads its input and prints it; every
    other command ends without reading. *)
Definition demoSpawnStdin (w : Z) (command : jsstring) (stdin : option jsstring)
    (timeoutMs : Q) : jsstring * ChildEvent * StdinWrite * Z :=
  if strEq command (js "cat")
  then (strOrEmpty stdin, ExitEvent (Some 0%Z) None, InputTaken, (w + 1500000000)%Z)
  else
    let '(captured, ev, w') := demoSpawn w command stdin timeoutMs in
    (captured, ev, BrokenPipe, w').

Definition catTest (mode : option TestComparison) : Test :=
  {| name := js "cat"; setup := None; run_ := js "cat";
     input := Some (js "42"); output := None; timeout := None;
     points := None; extra := None; comparison := mode |}.

(** ** The outcomes of a suite *)

Section Outcomes.

Variable World : Type.
Variable spawn : World -> jsstring -> option jsstring -> Q -> jsstring * ChildEvent * World.
Variable hrtime : World -> Z * World.
Variable regexMatch : jsstring -> jsstring -> option bool.

(** Whether each test of the list passes, when the tests run one after the
    other from the world [w] on, as [runAll] runs them. *)
Fixpoint outcomes (w : World) (tests : list Test) : list bool :=
  match tests with
  | [] => []
  | test :: rest =>
      let '(r, w') := run World spawn hrtime regexMatch w test in
      isOk r :: outcomes w' rest
  end.

End Outcomes.

(** The names of the tests with the outcome [ok], in the order of the list. *)
Definition namesWith (ok : bool) (xs : list (Test * bool)) : list jsstring :=
  map (fun x => name (fst x)) (List.filter (fun x => Bool.eqb (snd x) ok) xs).

(** What a test adds to [availablePoints]. *)
Definition pointsOffered (test : Test) : Z :=
  if numTruthy (points test) && negb (boolTruthy (extra test))
  then match points test with Some z => z | None => 0%Z end
  else 0%Z.

(** What a test adds to the earned points when it passes. *)
Definition pointsWorth (test : Test) : Z :=
  if numTruthy (points test)
  then match points test with Some z => z | None => 0%Z end
  else 0%Z.

Definition sumZ (l : list Z) : Z := fold_right Z.add 0%Z l.

(** The tally after the tests [xs], each with its outcome, from the tally
    [t0] on. *)
Definition recordAll (xs : list (Test * bool)) (t0 : SuiteTally) : SuiteTally :=
  fold_left (fun t x => recordOutcome t (fst x) (snd x)) xs t0.

(** A test that is not extra credit and has failed. *)
Definition requiredFailure (x : Test * bool) : bool :=
  negb (snd x) && negb (boolTruthy (extra (fst x))).

(** ** The marker line of a mismatch *)

(** The loop of [compareLines] and of [exactDiffMessage] that fills [diff],
    and [diff.join('')]: one marker for each character of the expected line,
    an underscore where the actual line has the same character and a caret
    where it has another one or none. *)
Definition diffLine (actualLine expectedLine : jsstring) : jsstring :=
  map (fun j => if charEq (actualLine !! j) (expectedLine !! j)
                then "_"%char else "^"%char)
      (seq 0 (length expectedLine)).

(** A suite without extra credit, for the examples. *)
Definition plainSuite : list Test :=
  [ demoTest "first" "false" (Some 10%Z) None;
    demoTest "second" "true" (Some 20%Z) None;
    demoTest "third" "true" (Some 30%Z) None ].

(** ** Lines *)

(** [lines.join(sep)] *)
Fixpoint joinWith (sep : jsstring) (lines : list jsstring) : jsstring :=
  match lines with
  | [] => []
  | [l] => l
  | l :: rest => l ++ sep ++ joinWith sep rest
  end.

(** [test] with its [output] field set to [expected]. *)
Definition withOutput (test : Test) (expected : jsstring) : Test :=
  {| name := name test; setup := setup test; run_ := run_ test;
     input := input test; output := Some expected; timeout := timeout test;
     points := points test; extra := extra test; comparison := comparison test |}.

(** ** The position of the closest match in [includedDiffMessage] *)

(** [s.split(/\r?\n/)] *)
Fixpoint splitLines (s : jsstring) : list jsstring :=
  match s with
  | [] => [[]]
  | c :: r =>
      if bool_decide (c = LF) then [] :: splitLines r
      else
        match r with
        | d :: r' =>
            if bool_decide (c = CR) && bool_decide (d = LF)
            then [] :: splitLines r'
            else match splitLines r with
                 | l :: ls => (c :: l) :: ls
                 | [] => [[c]]
                 end
        | [] => [[c]]
        end
  end.

(** [s.replace(/\r?\n/g, '')] *)
Fixpoint stripLineBreaks (s : jsstring) : jsstring :=
  match s with
  | [] => []
  | c :: r =>
      if bool_decide (c = LF) then stripLineBreaks r
      else
        match r with
        | d :: r' =>
            if bool_decide (c = CR) && bool_decide (d = LF)
            then stripLineBreaks r'
            else c :: stripLineBreaks r
        | [] => [c]
        end
  end.

(** The first index from [i] on at which [p] occurs in the text of which
    [s] is the part from [i] on. *)
Fixpoint indexOfFrom (s p : jsstring) (i : nat) : option nat :=
  if startsWith s p then Some i
  else
    match s with
    | [] => None
    | _ :: s' => indexOfFrom s' p (S i)
    end.

(** [s.indexOf(p)], which is -1 when [p] does not occur in [s] *)
Definition indexOf (s p : jsstring) : Z :=
  match indexOfFrom s p 0 with
  | Some i => Z.of_nat i
  | None => (-1)%Z
  end.

(** The loop [while (charCount < closestIndex)] of [includedDiffMessage], on
    [charCount] and [currLine].  The read of [.length] throws when
    [actualLines[currLine - 1]] is [undefined], and the loop moves one line
    ahead in each round, so with [S (length actualLines)] rounds of fuel
    [None] is returned exactly when the read throws. *)
Fixpoint locateLine (fuel : nat) (actualLines : list jsstring) (closestIndex : Z)
    (charCount : Z) (currLine : nat) : option nat :=
  match fuel with
  | 0 => None
  | S fuel' =>
      if (charCount <? closestIndex)%Z then
        match actualLines !! (currLine - 1) with
        | None => None
        | Some line =>
            locateLine fuel' actualLines closestIndex
                       (charCount + Z.of_nat (length line))%Z (S currLine)
        end
      else Some currLine
  end.

(** The line that [includedDiffMessage] reports for the closest match. *)
Definition closestLine (actual closest : jsstring) : option nat :=
  let actualLines := splitLines actual in
  let closestIndex := indexOf (stripLineBreaks actual) closest in
  locateLine (S (length actualLines)) actualLines closestIndex 0%Z 1.

(** The number of characters in the first [k] lines. *)
Definition charsBefore (actualLines : list jsstring) (k : nat) : Z :=
  Z.of_nat (length (concat (take k actualLines))).

(** [test] with its [setup] field set to [command]. *)
Definition withSetup (test : Test) (command : jsstring) : Test :=
  {| name := name test; setup := Some command; run_ := run_ test;
     input := input test; output := output test; timeout := timeout test;
     points := points test; extra := extra test; comparison := comparison test |}.

(** ** The prefix as the documentation words it *)

(** The doc comment of [jaroWinklerSimilarity] words its boost as "the length
    of a common prefix up to four characters": the number of equal leading
    characters, counted until the first place at which the strings differ,
    and at most [cap] of them. *)
Fixpoint commonPrefixLength (cap : nat) (a b : jsstring) : nat :=
  match cap, a, b with
  | S cap', c :: a', d :: b' =>
      if bool_decide (c = d) then S (commonPrefixLength cap' a' b') else 0
  | _, _, _ => 0
  end.

(** [base + prefixLen * 0.25 * (1 - base)] *)
Definition withPrefixBoost (base : Q) (prefixLen : nat) : Q :=
  (base + Qnat prefixLen * (1 # 4) * (1 - base))%Q.

(** [jaroWinklerSimilarity] with the boost of the common prefix in the place
    of [prefixLength]. *)
Definition jaroWinklerAsDocumented (str1 str2 : jsstring) : option Q :=
  if strEq str1 str2 then Some 1%Q
  else
    match jaroCore (maxDistOf (length str1) (length str2)) str1 str2 with
    | None => None
    | Some None => Some 0%Q
    | Some (Some (_, _, jaro)) =>
        Some (withPrefixBoost jaro (commonPrefixLength 4 str1 str2))
    end.

(** [scoreIs r q]: the call returns a number equal to [q]. *)
Definition scoreIs (r : option Q) (q : Q) : Prop :=
  exists x, r = Some x /\ (x == q)%Q.

(** The sentence of the unit test of [fuzzySearch]. *)
Definition sentence : jsstring :=
  js "The quick brown fox jumped over the lazy dog.".

(** ** The best window *)

(** [w] is the leftmost of the windows [ws] with the highest score against
    [toFind]: the window at some index [k] such that no window scores
    higher and every window before [k] scores lower. *)
Definition LeftmostBest (sim : jsstring -> jsstring -> option Q)
    (ws : list jsstring) (toFind w : jsstring) : Prop :=
  exists k dk,
    ws !! k = Some w /\ sim w toFind = Some dk /\
    forall j wj dj,
      ws !! j = Some wj -> sim wj toFind = Some dj ->
      (dj <= dk)%Q /\ (j < k -> (dj < dk)%Q).

(** The pair [p] of [reduce] after the windows [0 .. n-1] of [ws]. *)
Definition BestUpTo (sim : jsstring -> jsstring -> option Q)
    (ws : list jsstring) (toFind : jsstring) (n : nat) (p : nat * Q) : Prop :=
  (exists wk, ws !! fst p = Some wk /\ sim wk toFind = Some (snd p)) /\
  fst p <= n /\
  forall j wj dj,
    j < n -> ws !! j = Some wj -> sim wj toFind = Some dj ->
    (dj <= snd p)%Q /\ (j < fst p -> (dj < snd p)%Q).

(** ** Notions used to state what the loops compute *)

(** The indices [i] of [n <= i < n + r] at which the flag is set. *)
Definition matchedIdx (f : list bool) (n r : nat) : list nat :=
  List.filter (fun i => truthy (f !! i)) (seq n r).

(** The number of places at which two lists of characters differ. *)
Fixpoint mismatches (l1 l2 : list (option ascii)) : nat :=
  match l1, l2 with
  | c :: r1, d :: r2 => (if charEq c d then 0 else 1) + mismatches r1 r2
  | _, _ => 0
  end.

Definition matchedChars1 (str1 : jsstring) (flags1 : list bool) (n r : nat)
    : list (option ascii) :=
  map (fun i => str1 !! i) (matchedIdx flags1 n r).

Definition matchedChars2 (str2 : jsstring) (flags2 : list bool) (k r : nat)
    : list (option ascii) :=
  map (fun i => str2 !! i) (matchedIdx flags2 k r).

(** [compat a b d i j]: the characters [a[i]] and [b[j]] exist, are equal and
    are at most [d] positions apart. *)
Definition compat (a b : jsstring) (d : Z) (i j : nat) : Prop :=
  i < length a /\ j < length b /\ a !! i = b !! j /\
  (Z.of_nat i - d <= Z.of_nat j <= Z.of_nat i + d)%Z.

(** What the pairs [M] matched by the loop satisfy: every index of the first
    string takes the first partner that no earlier index has taken. *)
Record Greedy (a b : jsstring) (d : Z) (M : nat -> nat -> Prop) : Prop := {
  greedy_compat : forall i j, M i j -> compat a b d i j;
  greedy_fun : forall i j j', M i j -> M i j' -> j = j';
  greedy_inj : forall i i' j, M i j -> M i' j -> i = i';
  greedy_dec1 : forall i, (exists j, M i j) \/ ~ (exists j, M i j);
  greedy_dec2 : forall j, (exists i, M i j) \/ ~ (exists i, M i j);
  greedy_first : forall i j j',
      M i j -> compat a b d i j' -> j' < j -> exists i', i' < i /\ M i' j';
  greedy_taken : forall i j',
      ~ (exists j, M i j) -> compat a b d i j' -> exists i', i' < i /\ M i' j'
}.

(** The state after the rounds [0 .. n-1] of the first loop, with the pairs
    [M] that these rounds have matched. *)
Record MatchInv (str1 str2 : jsstring) (maxDist : Z) (n : nat) (st : MatchState) (M : nat -> nat -> Prop) : Prop := {
  inv_len1 : length (str1Matches st) = length str1;
  inv_len2 : length (str2Matches st) = length str2;
  inv_flag1 : forall i, truthy (str1Matches st !! i) = true <-> exists j, M i j;
  inv_flag2 : forall j, truthy (str2Matches st !! j) = true <-> exists i, M i j;
  inv_dom : forall i j, M i j -> i < n /\ compat str1 str2 maxDist i j;
  inv_fun : forall i j j', M i j -> M i j' -> j = j';
  inv_inj : forall i i' j, M i j -> M i' j -> i = i';
  inv_first : forall i j j',
      M i j -> compat str1 str2 maxDist i j' -> j' < j ->
      exists i', i' < i /\ M i' j';
  inv_taken : forall i j',
      i < n -> ~ (exists j, M i j) -> compat str1 str2 maxDist i j' ->
      exists i', i' < i /\ M i' j';
  inv_count1 : matches st = length (matchedIdx (str1Matches st) 0 (length str1));
  inv_count2 : matches st = length (matchedIdx (str2Matches st) 0 (length str2))
}.

(** * Properties *)

(** ** Lists of flags *)

Lemma charEq_sym c d : charEq c d = charEq d c.
Proof.
  unfold charEq. destruct (decide (c = d)) as [->|Hne].
  - reflexivity.
  - rewrite !bool_decide_eq_false_2; [reflexivity | congruence | assumption].
Qed.

Lemma charEq_true c d : charEq c d = true <-> c = d.
Proof. unfold charEq. apply bool_decide_eq_true. Qed.

Lemma strEq_sym s t : strEq s t = strEq t s.
Proof.
  unfold strEq. destruct (decide (s = t)) as [->|Hne].
  - reflexivity.
  - rewrite !bool_decide_eq_false_2; [reflexivity | congruence | assumption].
Qed.

Lemma mismatches_sym l1 : forall l2, mismatches l1 l2 = mismatches l2 l1.
Proof.
  induction l1 as [|c r1 IH]; intros [|d r2]; simpl; try reflexivity.
  rewrite IH, (charEq_sym c d). reflexivity.
Qed.

Lemma truthy_lookup_true (f : list bool) i :
  truthy (f !! i) = true <-> f !! i = Some true.
Proof.
  destruct (f !! i) as [[|]|]; simpl; split; intros H; congruence.
Qed.

Lemma truthy_lookup_false (f : list bool) i :
  i < length f -> truthy (f !! i) = false -> f !! i = Some false.
Proof.
  intros Hi Ht. destruct (lookup_lt_is_Some_2 f i Hi) as [b Hb].
  rewrite Hb in Ht |- *. destruct b; simpl in Ht; congruence.
Qed.

Lemma truthy_insert_eq (f : list bool) i :
  i < length f -> truthy (<[i := true]> f !! i) = true.
Proof. intros Hi. rewrite list_lookup_insert_eq by assumption. reflexivity. Qed.

Lemma truthy_insert_ne (f : list bool) i j :
  i <> j -> truthy (<[i := true]> f !! j) = truthy (f !! j).
Proof. intros Hne. rewrite list_lookup_insert_ne by assumption. reflexivity. Qed.

Lemma matchedIdx_cons f n r :
  matchedIdx f n (S r) =
  if truthy (f !! n) then n :: matchedIdx f (S n) r else matchedIdx f (S n) r.
Proof. reflexivity. Qed.

Lemma matchedIdx_insert_out (f : list bool) i : forall r n,
  i < n \/ n + r <= i ->
  matchedIdx (<[i := true]> f) n r = matchedIdx f n r.
Proof.
  induction r as [|r IH]; intros n Hi; [reflexivity|].
  rewrite !matchedIdx_cons, truthy_insert_ne by lia.
  rewrite IH by lia. reflexivity.
Qed.

Lemma matchedIdx_insert_length (f : list bool) i : forall r n,
  f !! i = Some false -> n <= i < n + r ->
  length (matchedIdx (<[i := true]> f) n r) = S (length (matchedIdx f n r)).
Proof.
  induction r as [|r IH]; intros n Hf Hi; [lia|].
  rewrite !matchedIdx_cons.
  destruct (decide (i = n)) as [->|Hne].
  - rewrite truthy_insert_eq by (eapply lookup_lt_Some; eassumption).
    rewrite Hf. simpl. rewrite matchedIdx_insert_out by lia. reflexivity.
  - rewrite truthy_insert_ne by assumption.
    destruct (truthy (f !! n)); simpl; rewrite IH by (assumption || lia); reflexivity.
Qed.

Lemma matchedIdx_replicate n0 : forall r n,
  matchedIdx (replicate n0 false) n r = [].
Proof.
  induction r as [|r IH]; intros n; [reflexivity|].
  rewrite matchedIdx_cons, IH.
  destruct (replicate n0 false !! n) as [b|] eqn:E; [|reflexivity].
  apply lookup_replicate in E as [-> _]. reflexivity.
Qed.

(** Two arrays of flags of one length with the same truthy places are equal. *)
Lemma flags_ext (f g : list bool) :
  length f = length g ->
  (forall i, truthy (f !! i) = truthy (g !! i)) ->
  f = g.
Proof.
  intros Hlen H. apply list_eq. intros i.
  destruct (f !! i) as [b|] eqn:Ef.
  - assert (Hi : i < length g) by (rewrite <- Hlen; eapply lookup_lt_Some; eassumption).
    destruct (lookup_lt_is_Some_2 g i Hi) as [c Ec].
    specialize (H i). rewrite Ef, Ec in H. rewrite Ec.
    destruct b, c; simpl in H; congruence.
  - apply lookup_ge_None in Ef. symmetry. apply lookup_ge_None. lia.
Qed.

(** [find] on a range returns the first hit. *)
Lemma find_seq_Some (p : nat -> bool) : forall r lo j,
  find p (seq lo r) = Some j ->
  lo <= j < lo + r /\ p j = true /\ forall j', lo <= j' < j -> p j' = false.
Proof.
  induction r as [|r IH]; intros lo j H; simpl in H; [discriminate|].
  destruct (p lo) eqn:E.
  - injection H as <-. repeat split; [lia | lia | assumption | intros; lia].
  - apply IH in H as (Hr & Hp & Hfirst). repeat split; [lia | lia | assumption |].
    intros j' Hj'. destruct (decide (j' = lo)) as [->|]; [assumption|].
    apply Hfirst. lia.
Qed.

Lemma find_seq_None (p : nat -> bool) : forall r lo,
  find p (seq lo r) = None -> forall j, lo <= j < lo + r -> p j = false.
Proof.
  induction r as [|r IH]; intros lo H j Hj; [lia|]. simpl in H.
  destruct (p lo) eqn:E; [discriminate|].
  destruct (decide (j = lo)) as [->|]; [assumption|].
  apply (IH (S lo)); [assumption | lia].
Qed.

(** ** The greedy matching of the first loop *)

Lemma compat_flip a b d i j : compat a b d i j -> compat b a d j i.
Proof. unfold compat. intros (H1 & H2 & H3 & H4). repeat split; (congruence || lia). Qed.

(** The matching is the same whichever string drives the loop. *)
Lemma Greedy_flip a b d M :
  Greedy a b d M -> Greedy b a d (fun j i => M i j).
Proof.
  intros G. split.
  - intros j i H. apply compat_flip. eapply greedy_compat; eassumption.
  - intros j i i' H H'. eapply greedy_inj; eassumption.
  - intros j j' i H H'. eapply greedy_fun; eassumption.
  - intros j. apply (greedy_dec2 _ _ _ _ G).
  - intros i. apply (greedy_dec1 _ _ _ _ G).
  - intros j i i' Hij Hc Hlt. apply compat_flip in Hc.
    destruct (greedy_dec1 _ _ _ _ G i') as [[j' Hj']|Hno].
    + exists j'. split; [|assumption].
      destruct (Nat.lt_trichotomy j' j) as [Hl|[->|Hg]]; [assumption | |].
      * pose proof (greedy_inj _ _ _ _ G _ _ _ Hij Hj'). lia.
      * destruct (greedy_first _ _ _ _ G _ _ _ Hj' Hc Hg) as (i'' & Hi'' & Hm).
        pose proof (greedy_inj _ _ _ _ G _ _ _ Hij Hm). lia.
    + destruct (greedy_taken _ _ _ _ G _ _ Hno Hc) as (i'' & Hi'' & Hm).
      pose proof (greedy_inj _ _ _ _ G _ _ _ Hij Hm). lia.
  - intros j i' Hno Hc. apply compat_flip in Hc.
    destruct (greedy_dec1 _ _ _ _ G i') as [[j' Hj']|Hno'].
    + exists j'. split; [|assumption].
      destruct (Nat.lt_trichotomy j' j) as [Hl|[->|Hg]]; [assumption | |].
      * exfalso. apply Hno. exists i'. assumption.
      * destruct (greedy_first _ _ _ _ G _ _ _ Hj' Hc Hg) as (i'' & Hi'' & Hm).
        exfalso. apply Hno. exists i''. assumption.
    + destruct (greedy_taken _ _ _ _ G _ _ Hno' Hc) as (i'' & Hi'' & Hm).
      exfalso. apply Hno. exists i''. assumption.
Qed.

(** There is one greedy matching. *)
Lemma Greedy_unique a b d M1 M2 :
  Greedy a b d M1 -> Greedy a b d M2 -> forall i j, M1 i j -> M2 i j.
Proof.
  intros G1 G2 i. induction i as [i IH] using lt_wf_ind. intros j H1.
  pose proof (greedy_compat _ _ _ _ G1 _ _ H1) as Hc.
  destruct (greedy_dec1 _ _ _ _ G2 i) as [[j2 H2]|Hno].
  - destruct (Nat.lt_trichotomy j j2) as [Hl|[->|Hg]]; [| assumption |].
    + destruct (greedy_first _ _ _ _ G2 _ _ _ H2 Hc Hl) as (i' & Hi' & Hm).
      assert (Hm1 : M1 i' j).
      { destruct (greedy_dec1 _ _ _ _ G1 i') as [[j1 Hj1]|Hno1].
        - pose proof (IH i' Hi' j1 Hj1) as Hm2.
          rewrite (greedy_fun _ _ _ _ G2 _ _ _ Hm Hm2). assumption.
        - destruct (greedy_taken _ _ _ _ G1 _ _ Hno1
                      (greedy_compat _ _ _ _ G2 _ _ Hm)) as (i'' & Hi'' & Hm'').
          pose proof (greedy_inj _ _ _ _ G1 _ _ _ H1 Hm''). lia. }
      pose proof (greedy_inj _ _ _ _ G1 _ _ _ H1 Hm1). lia.
    + pose proof (greedy_compat _ _ _ _ G2 _ _ H2) as Hc2.
      destruct (greedy_first _ _ _ _ G1 _ _ _ H1 Hc2 Hg) as (i' & Hi' & Hm).
      pose proof (IH i' Hi' j2 Hm) as Hm2.
      pose proof (greedy_inj _ _ _ _ G2 _ _ _ H2 Hm2). lia.
  - destruct (greedy_taken _ _ _ _ G2 _ _ Hno Hc) as (i' & Hi' & Hm).
    assert (Hm1 : M1 i' j).
    { destruct (greedy_dec1 _ _ _ _ G1 i') as [[j1 Hj1]|Hno1].
      - pose proof (IH i' Hi' j1 Hj1) as Hm2.
        rewrite (greedy_fun _ _ _ _ G2 _ _ _ Hm Hm2). assumption.
      - destruct (greedy_taken _ _ _ _ G1 _ _ Hno1
                    (greedy_compat _ _ _ _ G2 _ _ Hm)) as (i'' & Hi'' & Hm'').
        pose proof (greedy_inj _ _ _ _ G1 _ _ _ H1 Hm''). lia. }
    pose proof (greedy_inj _ _ _ _ G1 _ _ _ H1 Hm1). lia.
Qed.

Section MatchLoop.

Variables str1 str2 : jsstring.
Variable maxDist : Z.

Lemma MatchInv_init : MatchInv str1 str2 maxDist 0 (matchInit str1 str2) (fun _ _ => False).
Proof.
  split; simpl; try (intros; tauto || lia).
  - apply length_replicate.
  - apply length_replicate.
  - intros i. split; [|intros [_ []]].
    intros H. apply truthy_lookup_true, lookup_replicate in H as [? _]. discriminate.
  - intros j. split; [|intros [_ []]].
    intros H. apply truthy_lookup_true, lookup_replicate in H as [? _]. discriminate.
  - rewrite matchedIdx_replicate. reflexivity.
  - rewrite matchedIdx_replicate. reflexivity.
Qed.

(** The window of the inner loop holds the [j] that are compatible up to
    the characters. *)
Lemma window_range (i j : nat) :
  let lo := Z.to_nat (Z.max 0 (Z.of_nat i - maxDist)) in
  let hi := Z.to_nat (Z.min (Z.of_nat (length str2)) (Z.of_nat i + maxDist + 1)) in
  lo <= j < lo + (hi - lo) <->
  j < length str2 /\ (Z.of_nat i - maxDist <= Z.of_nat j <= Z.of_nat i + maxDist)%Z.
Proof. simpl. lia. Qed.

Lemma scanWindow_Some flags2 i j :
  i < length str1 ->
  scanWindow str1 str2 maxDist flags2 i = Some j ->
  compat str1 str2 maxDist i j /\ truthy (flags2 !! j) = false /\
  forall j', compat str1 str2 maxDist i j' -> j' < j -> truthy (flags2 !! j') = true.
Proof.
  intros Hi H. unfold scanWindow in H.
  apply find_seq_Some in H as (Hr & Hp & Hfirst).
  apply window_range in Hr as [Hj Hd].
  apply andb_prop in Hp as [Hc Hf].
  apply charEq_true in Hc. apply negb_true_iff in Hf.
  split; [repeat split; assumption || lia|]. split; [assumption|].
  intros j' (_ & Hj' & Hc' & Hd') Hlt.
  assert (Hr' : Z.to_nat (Z.max 0 (Z.of_nat i - maxDist)) <= j' < j) by lia.
  specialize (Hfirst j' Hr').
  apply andb_false_iff in Hfirst as [Hfirst|Hfirst].
  - apply charEq_true in Hc'. congruence.
  - apply negb_false_iff in Hfirst. assumption.
Qed.

Lemma scanWindow_None flags2 i :
  scanWindow str1 str2 maxDist flags2 i = None ->
  forall j', compat str1 str2 maxDist i j' -> truthy (flags2 !! j') = true.
Proof.
  intros H j' (_ & Hj' & Hc' & Hd'). unfold scanWindow in H.
  pose proof (find_seq_None _ _ _ H j') as Hn.
  rewrite window_range in Hn. specialize (Hn (conj Hj' Hd')).
  apply andb_false_iff in Hn as [Hn|Hn].
  - apply charEq_true in Hc'. congruence.
  - apply negb_false_iff in Hn. assumption.
Qed.

Lemma MatchInv_step n st M :
  n < length str1 ->
  MatchInv str1 str2 maxDist n st M ->
  exists M', MatchInv str1 str2 maxDist (S n) (matchStep str1 str2 maxDist st n) M'.
Proof.
  intros Hn I. unfold matchStep.
  destruct (scanWindow str1 str2 maxDist (str2Matches st) n) as [j|] eqn:E.
  - apply (scanWindow_Some _ _ _ Hn) in E as (Hc & Hfree & Hfirst).
    assert (Hj : j < length str2) by apply Hc.
    assert (Hnew2 : forall i, ~ M i j).
    { intros i Hm. assert (truthy (str2Matches st !! j) = true)
        by (apply (inv_flag2 _ _ _ _ _ _ I); eauto). congruence. }
    assert (Hnew1 : forall j', ~ M n j').
    { intros j' Hm. apply (inv_dom _ _ _ _ _ _ I) in Hm as [? _]. lia. }
    exists (fun i' j' => M i' j' \/ (i' = n /\ j' = j)).
    split; simpl.
    + rewrite length_insert. apply (inv_len1 _ _ _ _ _ _ I).
    + rewrite length_insert. apply (inv_len2 _ _ _ _ _ _ I).
    + intros i. destruct (decide (n = i)) as [<-|Hne].
      * rewrite truthy_insert_eq by (rewrite (inv_len1 _ _ _ _ _ _ I); assumption).
        split; [eauto | reflexivity].
      * rewrite truthy_insert_ne by assumption. rewrite (inv_flag1 _ _ _ _ _ _ I).
        split; intros [j' H]; [eauto | destruct H as [H|[? _]]; [eauto | congruence]].
    + intros j'. destruct (decide (j = j')) as [<-|Hne].
      * rewrite truthy_insert_eq by (rewrite (inv_len2 _ _ _ _ _ _ I); assumption).
        split; [eauto | reflexivity].
      * rewrite truthy_insert_ne by assumption. rewrite (inv_flag2 _ _ _ _ _ _ I).
        split; intros [i H]; [eauto | destruct H as [H|[_ ?]]; [eauto | congruence]].
    + intros i j' [H|[-> ->]].
      * apply (inv_dom _ _ _ _ _ _ I) in H as [? ?]. split; [lia | assumption].
      * split; [lia | assumption].
    + intros i j1 j2 [H1|[-> ->]] [H2|[? ->]]; subst.
      * eapply (inv_fun _ _ _ _ _ _ I); eassumption.
      * exfalso. eapply Hnew1; eassumption.
      * exfalso. eapply Hnew1; eassumption.
      * reflexivity.
    + intros i1 i2 j' [H1|[-> ->]] [H2|[-> ?]]; subst.
      * eapply (inv_inj _ _ _ _ _ _ I); eassumption.
      * exfalso. eapply Hnew2; eassumption.
      * exfalso. eapply Hnew2; eassumption.
      * reflexivity.
    + intros i j1 j' [H|[-> ->]] Hc' Hlt.
      * destruct (inv_first _ _ _ _ _ _ I _ _ _ H Hc' Hlt) as (i' & ? & ?). eauto.
      * apply (Hfirst _ Hc') in Hlt. apply (inv_flag2 _ _ _ _ _ _ I) in Hlt as [i' Hm].
        exists i'. split; [|eauto]. apply (inv_dom _ _ _ _ _ _ I) in Hm. lia.
    + intros i j' Hi Hno Hc'.
      destruct (decide (i = n)) as [->|Hne]; [exfalso; apply Hno; eauto|].
      destruct (inv_taken _ _ _ _ _ _ I i j') as (i' & ? & ?);
        [lia | intros [j0 ?]; apply Hno; eauto | assumption | eauto].
    + rewrite matchedIdx_insert_length.
      * f_equal. apply (inv_count1 _ _ _ _ _ _ I).
      * apply truthy_lookup_false; [rewrite (inv_len1 _ _ _ _ _ _ I); assumption|].
        destruct (truthy (str1Matches st !! n)) eqn:Et; [|reflexivity].
        apply (inv_flag1 _ _ _ _ _ _ I) in Et as [j' Hm]. exfalso. eapply Hnew1; eassumption.
      * lia.
    + rewrite matchedIdx_insert_length.
      * f_equal. apply (inv_count2 _ _ _ _ _ _ I).
      * apply truthy_lookup_false; [rewrite (inv_len2 _ _ _ _ _ _ I)|]; assumption.
      * lia.
  - exists M. destruct I. split; try assumption.
    + intros i j H. apply inv_dom0 in H as [? ?]. split; [lia | assumption].
    + intros i j' Hi Hno Hc'.
      destruct (decide (i = n)) as [->|Hne].
      * pose proof (scanWindow_None _ _ E _ Hc') as Ht.
        apply inv_flag4 in Ht as [i' Hm]. exists i'. split; [|assumption].
        apply inv_dom0 in Hm. lia.
      * apply inv_taken0; [lia | assumption | assumption].
Qed.

Lemma MatchInv_prefix n :
  n <= length str1 ->
  exists M,
    MatchInv str1 str2 maxDist n (fold_left (matchStep str1 str2 maxDist) (seq 0 n) (matchInit str1 str2)) M.
Proof.
  induction n as [|n IH]; intros Hn.
  - exists (fun _ _ => False). apply MatchInv_init.
  - destruct IH as [M I]; [lia|].
    rewrite seq_S, fold_left_app. simpl.
    eapply MatchInv_step; [lia | eassumption].
Qed.

Lemma matchLoop_inv :
  exists M, MatchInv str1 str2 maxDist (length str1) (matchLoop str1 str2 maxDist) M.
Proof. apply MatchInv_prefix. lia. Qed.

Lemma MatchInv_Greedy st M :
  MatchInv str1 str2 maxDist (length str1) st M -> Greedy str1 str2 maxDist M.
Proof.
  intros I. split.
  - intros i j H. apply (inv_dom _ _ _ _ _ _ I) in H. tauto.
  - apply (inv_fun _ _ _ _ _ _ I).
  - apply (inv_inj _ _ _ _ _ _ I).
  - intros i. rewrite <- (inv_flag1 _ _ _ _ _ _ I).
    destruct (truthy (str1Matches st !! i)); [left | right]; congruence.
  - intros j. rewrite <- (inv_flag2 _ _ _ _ _ _ I).
    destruct (truthy (str2Matches st !! j)); [left | right]; congruence.
  - apply (inv_first _ _ _ _ _ _ I).
  - intros i j' Hno Hc. apply (inv_taken _ _ _ _ _ _ I); try assumption. apply Hc.
Qed.

End MatchLoop.

(** ** The second loop: counting the transpositions *)

Lemma fold_left_step {A B : Type} (f : A -> B -> A) (x : B) (l : list B) (s : A) :
  fold_left f (x :: l) s = fold_left f l (f s x).
Proof. reflexivity. Qed.

Lemma skipUnmatched_spec (f : list bool) : forall r k fuel,
  matchedIdx f k r <> [] -> r <= fuel ->
  exists k', skipUnmatched fuel f k = Some k' /\ k <= k' < k + r /\
             matchedIdx f k r = k' :: matchedIdx f (S k') (k + r - S k').
Proof.
  induction r as [|r IH]; intros k fuel Hne Hfuel; [contradiction|].
  destruct fuel as [|fuel]; [lia|]. simpl.
  rewrite matchedIdx_cons in Hne |- *.
  destruct (truthy (f !! k)) eqn:E.
  - exists k. repeat split; try lia. do 2 f_equal. lia.
  - destruct (IH (S k) fuel Hne) as (k' & Hs & Hk & Hm); [lia|].
    exists k'. repeat split; try assumption; try lia.
    rewrite Hm. do 2 f_equal. lia.
Qed.

Section TransLoop.

Variables str1 str2 : jsstring.
Variables flags1 flags2 : list bool.

Lemma transStep_Some k t i :
  transStep str1 str2 flags1 flags2 (Some (k, t)) i =
  if truthy (flags1 !! i) then
    match skipUnmatched (S (length flags2)) flags2 k with
    | None => None
    | Some k' =>
        Some (S k', if charEq (str1 !! i) (str2 !! k') then t else S t)
    end
  else Some (k, t).
Proof. reflexivity. Qed.

Lemma transLoop_from : forall r n k t,
  length (matchedIdx flags1 n r) =
    length (matchedIdx flags2 k (length flags2 - k)) ->
  exists k',
    fold_left (transStep str1 str2 flags1 flags2) (seq n r) (Some (k, t)) =
    Some (k', t + mismatches (matchedChars1 str1 flags1 n r)
                             (matchedChars2 str2 flags2 k (length flags2 - k))).
Proof.
  unfold matchedChars1, matchedChars2.
  induction r as [|r IH]; intros n k t Hlen.
  - exists k. simpl. f_equal. f_equal. lia.
  - rewrite <- cons_seq, fold_left_step, transStep_Some.
    rewrite matchedIdx_cons in Hlen |- *.
    destruct (truthy (flags1 !! n)) eqn:E.
    + destruct (skipUnmatched_spec flags2 (length flags2 - k) k (S (length flags2)))
        as (k' & Hs & Hk & Hm).
      { intros Hnil. rewrite Hnil in Hlen. discriminate. }
      { lia. }
      rewrite Hs.
      replace (k + (length flags2 - k) - S k') with (length flags2 - S k') in Hm by lia.
      rewrite Hm in Hlen |- *. simpl in Hlen. injection Hlen as Hlen.
      destruct (IH (S n) (S k')
                  (if charEq (str1 !! n) (str2 !! k') then t else S t) Hlen)
        as (kf & Hf).
      exists kf. rewrite Hf. simpl. f_equal. f_equal.
      destruct (charEq (str1 !! n) (str2 !! k')); lia.
    + apply IH. assumption.
Qed.

(** The second loop returns, and counts the places at which the matched
    characters of the two strings, each in its own order, differ. *)
Lemma transLoop_spec :
  length flags1 = length str1 ->
  length (matchedIdx flags1 0 (length str1)) =
    length (matchedIdx flags2 0 (length flags2)) ->
  exists k',
    transLoop str1 str2 flags1 flags2 =
    Some (k', mismatches (matchedChars1 str1 flags1 0 (length str1))
                         (matchedChars2 str2 flags2 0 (length flags2))).
Proof.
  intros Hl Hlen. unfold transLoop.
  destruct (transLoop_from (length str1) 0 0 0) as (k' & H).
  { rewrite Nat.sub_0_r. assumption. }
  exists k'. rewrite H, Nat.sub_0_r. reflexivity.
Qed.

End TransLoop.

(** ** The shared body returns, and does not depend on which string drives *)

Lemma jaroCore_total d a b : exists r, jaroCore d a b = Some r.
Proof.
  unfold jaroCore. destruct (matchLoop_inv a b d) as [M I].
  destruct (matches (matchLoop a b d) =? 0); [eauto|].
  destruct (transLoop_spec a b (str1Matches (matchLoop a b d))
              (str2Matches (matchLoop a b d))) as (k' & H).
  - apply (inv_len1 _ _ _ _ _ _ I).
  - rewrite <- (inv_count1 _ _ _ _ _ _ I).
    rewrite (inv_len2 _ _ _ _ _ _ I). apply (inv_count2 _ _ _ _ _ _ I).
  - rewrite H. eauto.
Qed.

Lemma matchLoop_flip d a b :
  str1Matches (matchLoop a b d) = str2Matches (matchLoop b a d) /\
  str2Matches (matchLoop a b d) = str1Matches (matchLoop b a d) /\
  matches (matchLoop a b d) = matches (matchLoop b a d).
Proof.
  destruct (matchLoop_inv a b d) as [M I].
  destruct (matchLoop_inv b a d) as [M' I'].
  pose proof (MatchInv_Greedy _ _ _ _ _ I) as G.
  pose proof (MatchInv_Greedy _ _ _ _ _ I') as G'.
  pose proof (Greedy_flip _ _ _ _ G) as Gf.
  pose proof (Greedy_flip _ _ _ _ G') as Gf'.
  assert (H1 : forall i j, M i j -> M' j i)
    by (intros i j H; apply (Greedy_unique _ _ _ _ _ Gf G' j i H)).
  assert (H2 : forall i j, M' j i -> M i j)
    by (intros i j H; apply (Greedy_unique _ _ _ _ _ Gf' G i j H)).
  assert (E1 : str1Matches (matchLoop a b d) = str2Matches (matchLoop b a d)).
  { apply flags_ext.
    - rewrite (inv_len1 _ _ _ _ _ _ I), (inv_len2 _ _ _ _ _ _ I'). reflexivity.
    - intros i. apply eq_true_iff_eq.
      rewrite (inv_flag1 _ _ _ _ _ _ I), (inv_flag2 _ _ _ _ _ _ I').
      split; intros [j H]; eauto. }
  assert (E2 : str2Matches (matchLoop a b d) = str1Matches (matchLoop b a d)).
  { apply flags_ext.
    - rewrite (inv_len2 _ _ _ _ _ _ I), (inv_len1 _ _ _ _ _ _ I'). reflexivity.
    - intros j. apply eq_true_iff_eq.
      rewrite (inv_flag2 _ _ _ _ _ _ I), (inv_flag1 _ _ _ _ _ _ I').
      split; intros [i H]; eauto. }
  repeat split; try assumption.
  rewrite (inv_count1 _ _ _ _ _ _ I), (inv_count2 _ _ _ _ _ _ I'), E1.
  reflexivity.
Qed.

(** The number of matches and the transposition count of [jaroCore d a b] are
    those of [jaroCore d b a]. *)
Lemma jaroCore_flip d a b :
  (jaroCore d a b = Some None /\ jaroCore d b a = Some None) \/
  exists m t, m <> 0 /\
    jaroCore d a b = Some (Some (m, t, jaroFormula m t (length a) (length b))) /\
    jaroCore d b a = Some (Some (m, t, jaroFormula m t (length b) (length a))).
Proof.
  unfold jaroCore.
  destruct (matchLoop_flip d a b) as (E1 & E2 & Em).
  destruct (matchLoop_inv a b d) as [M I].
  destruct (matchLoop_inv b a d) as [M' I'].
  rewrite <- Em, <- E1, <- E2.
  destruct (matches (matchLoop a b d) =? 0) eqn:E0; [left; split; reflexivity|].
  right. apply Nat.eqb_neq in E0.
  set (f1 := str1Matches (matchLoop a b d)) in *.
  set (f2 := str2Matches (matchLoop a b d)) in *.
  assert (L1 : length f1 = length a) by apply (inv_len1 _ _ _ _ _ _ I).
  assert (L2 : length f2 = length b) by apply (inv_len2 _ _ _ _ _ _ I).
  assert (C : length (matchedIdx f1 0 (length a)) = length (matchedIdx f2 0 (length b))).
  { unfold f1, f2. rewrite <- (inv_count1 _ _ _ _ _ _ I). apply (inv_count2 _ _ _ _ _ _ I). }
  destruct (transLoop_spec a b f1 f2) as (k1 & T1); [assumption | rewrite L2; assumption |].
  destruct (transLoop_spec b a f2 f1) as (k2 & T2); [assumption | rewrite L1; symmetry; assumption |].
  rewrite T1, T2.
  exists (matches (matchLoop a b d)),
         (mismatches (matchedChars1 a f1 0 (length a)) (matchedChars2 b f2 0 (length f2))).
  split; [assumption|]. split; [reflexivity|].
  rewrite mismatches_sym. unfold matchedChars1, matchedChars2.
  rewrite L1, L2. reflexivity.
Qed.

(** ** The similarity functions *)

Lemma fold_left_ext_eq {A B : Type} (f g : A -> B -> A) (l : list B) :
  (forall s x, f s x = g s x) -> forall s, fold_left f l s = fold_left g l s.
Proof.
  intros H. induction l as [|x l IH]; intros s; simpl; [reflexivity|].
  rewrite H. apply IH.
Qed.

Lemma prefixLength_sym a b : prefixLength a b = prefixLength b a.
Proof.
  unfold prefixLength. rewrite (Nat.min_comm (length a) (length b)).
  apply fold_left_ext_eq. intros n i. rewrite charEq_sym. reflexivity.
Qed.

Lemma maxDistOf_sym n m : maxDistOf n m = maxDistOf m n.
Proof. unfold maxDistOf. rewrite Nat.max_comm. reflexivity. Qed.

Lemma jaroSimilarityAt_total d a b : exists q, Jaro.jaroSimilarityAt d a b = Some q.
Proof.
  unfold Jaro.jaroSimilarityAt. destruct (strEq a b); [eauto|].
  destruct (jaroCore_total d a b) as [[[[m t] q]|] ->]; eauto.
Qed.

Lemma jaroWinklerSimilarityAt_total d a b :
  exists q, JaroWinkler.jaroWinklerSimilarityAt d a b = Some q.
Proof.
  unfold JaroWinkler.jaroWinklerSimilarityAt. destruct (strEq a b); [eauto|].
  destruct (jaroCore_total d a b) as [[[[m t] q]|] ->]; eauto.
Qed.

Lemma jaroSimilarity_total a b : exists q, Jaro.jaroSimilarity a b = Some q.
Proof. apply jaroSimilarityAt_total. Qed.

Lemma jaroWinklerSimilarity_total a b :
  exists q, JaroWinkler.jaroWinklerSimilarity a b = Some q.
Proof. apply jaroWinklerSimilarityAt_total. Qed.

(** The Jaro-Winkler score is the Jaro score with the boost of
    [prefixLength]. *)
Lemma jaroWinkler_decomposition a b :
  a <> b ->
  (Jaro.jaroSimilarity a b = Some 0%Q /\
   JaroWinkler.jaroWinklerSimilarity a b = Some 0%Q /\
   jaroCore (maxDistOf (length a) (length b)) a b = Some None) \/
  exists m t, m <> 0 /\
    jaroCore (maxDistOf (length a) (length b)) a b =
      Some (Some (m, t, jaroFormula m t (length a) (length b))) /\
    Jaro.jaroSimilarity a b = Some (jaroFormula m t (length a) (length b)) /\
    JaroWinkler.jaroWinklerSimilarity a b =
      Some (jaroFormula m t (length a) (length b)
            + Qnat (prefixLength a b) * (1 # 4)
              * (1 - jaroFormula m t (length a) (length b)))%Q.
Proof.
  intros Hne.
  unfold Jaro.jaroSimilarity, JaroWinkler.jaroWinklerSimilarity,
    Jaro.jaroSimilarityAt, JaroWinkler.jaroWinklerSimilarityAt, strEq.
  rewrite bool_decide_eq_false_2 by assumption.
  destruct (jaroCore_flip (maxDistOf (length a) (length b)) a b)
    as [[E _]|(m & t & Hm & E & _)]; rewrite E.
  - left. repeat split; reflexivity.
  - right. exists m, t. repeat split; assumption || reflexivity.
Qed.

(** The score of [str1] against [str2] does not depend on the order of the
    two strings, up to the order of the two summands [matches / len1] and
    [matches / len2]. *)
Lemma jaroFormula_swap m t l1 l2 :
  (jaroFormula m t l1 l2 == jaroFormula m t l2 l1)%Q.
Proof. unfold jaroFormula. cbv zeta. rewrite (Qplus_comm (Qnat m / Qnat l1)). reflexivity. Qed.

(** C5: for two strings of one length the similarity of [a] to [b] is the
    similarity of [b] to [a], in both variants of the file; both calls
    return, and they return the same number. *)
Theorem similarity_symmetric_on_equal_length (a b : jsstring) :
  length a = length b ->
  (exists q, JaroWinkler.jaroWinklerSimilarity a b = Some q /\
             JaroWinkler.jaroWinklerSimilarity b a = Some q) /\
  (exists q, Jaro.jaroSimilarity a b = Some q /\
             Jaro.jaroSimilarity b a = Some q) /\
  jaroCore (maxDistOf (length a) (length b)) a b =
    jaroCore (maxDistOf (length b) (length a)) b a /\
  prefixLength a b = prefixLength b a.
Proof.
  intros Hlen.
  unfold JaroWinkler.jaroWinklerSimilarity, Jaro.jaroSimilarity,
    JaroWinkler.jaroWinklerSimilarityAt, Jaro.jaroSimilarityAt.
  rewrite (strEq_sym b a), (prefixLength_sym b a).
  rewrite (maxDistOf_sym (length b) (length a)).
  assert (E : jaroCore (maxDistOf (length a) (length b)) a b =
              jaroCore (maxDistOf (length a) (length b)) b a).
  { destruct (jaroCore_flip (maxDistOf (length a) (length b)) a b)
      as [[E1 E2]|(m & t & Hm & E1 & E2)]; rewrite E1, E2;
      [reflexivity | rewrite Hlen; reflexivity]. }
  rewrite <- E.
  destruct (jaroWinklerSimilarityAt_total (maxDistOf (length a) (length b)) a b)
    as [q Hq].
  destruct (jaroSimilarityAt_total (maxDistOf (length a) (length b)) a b)
    as [q' Hq'].
  unfold JaroWinkler.jaroWinklerSimilarityAt in Hq.
  unfold Jaro.jaroSimilarityAt in Hq'.
  rewrite Hq, Hq'. repeat split; eauto.
Qed.

Lemma similarity_symmetric_on_equal_length_witness :
  length (js "martha") = length (js "marhta") /\
  ((exists q, JaroWinkler.jaroWinklerSimilarity (js "martha") (js "marhta") = Some q /\
              JaroWinkler.jaroWinklerSimilarity (js "marhta") (js "martha") = Some q) /\
   (exists q, Jaro.jaroSimilarity (js "martha") (js "marhta") = Some q /\
              Jaro.jaroSimilarity (js "marhta") (js "martha") = Some q) /\
   jaroCore (maxDistOf (length (js "martha")) (length (js "marhta")))
            (js "martha") (js "marhta") =
     jaroCore (maxDistOf (length (js "marhta")) (length (js "martha")))
              (js "marhta") (js "martha") /\
   prefixLength (js "martha") (js "marhta") = prefixLength (js "marhta") (js "martha")).
Proof.
  split; [reflexivity|].
  apply (similarity_symmetric_on_equal_length (js "martha") (js "marhta")).
  reflexivity.
Defined.

(** ** Strings of at most one character *)

Lemma jaroCore_no_common_char d (c c' : ascii) :
  c <> c' -> jaroCore d [c] [c'] = Some None.
Proof.
  intros Hne. unfold jaroCore.
  destruct (matchLoop_inv [c] [c'] d) as [M I].
  destruct (matches (matchLoop [c] [c'] d) =? 0) eqn:E; [reflexivity|].
  exfalso. apply Nat.eqb_neq in E.
  rewrite (inv_count1 _ _ _ _ _ _ I) in E.
  destruct (matchedIdx (str1Matches (matchLoop [c] [c'] d)) 0 (length [c]))
    as [|i l] eqn:Ei; [apply E; reflexivity|].
  assert (Hin : In i (i :: l)) by (left; reflexivity).
  rewrite <- Ei in Hin. unfold matchedIdx in Hin.
  apply filter_In in Hin as [_ Ht].
  apply (inv_flag1 _ _ _ _ _ _ I) in Ht as [j Hm].
  apply (inv_dom _ _ _ _ _ _ I) in Hm as [_ (Hi & Hj & Hc & _)].
  simpl in Hi, Hj.
  assert (i = 0) by lia. assert (j = 0) by lia. subst.
  simpl in Hc. congruence.
Qed.

Lemma jaroCore_empty_l d b : jaroCore d [] b = Some None.
Proof. reflexivity. Qed.

Lemma jaroCore_empty_r d a : jaroCore d a [] = Some None.
Proof.
  destruct (jaroCore_flip d a []) as [[E _]|(m & t & Hm & _ & E)].
  - assumption.
  - rewrite jaroCore_empty_l in E. discriminate.
Qed.

Lemma jaroCore_short d a b :
  length a <= 1 -> length b <= 1 -> a <> b -> jaroCore d a b = Some None.
Proof.
  intros Ha Hb Hne.
  destruct a as [|c [|? ?]]; simpl in Ha; [apply jaroCore_empty_l | | lia].
  destruct b as [|c' [|? ?]]; simpl in Hb; [apply jaroCore_empty_r | | lia].
  apply jaroCore_no_common_char. congruence.
Qed.

(** C7: on two strings of at most one character each, where [maxDist] is
    [-1], both similarity functions return: 1 when the strings are equal and
    0 when they differ.  This is also what they return when the scan has
    half-width 0, that is when it looks at the position [i] alone. *)
Theorem similarity_of_short_strings (a b : jsstring) :
  length a <= 1 -> length b <= 1 ->
  maxDistOf (length a) (length b) = (-1)%Z /\
  Jaro.jaroSimilarity a b = Some (if strEq a b then 1 else 0)%Q /\
  JaroWinkler.jaroWinklerSimilarity a b = Some (if strEq a b then 1 else 0)%Q /\
  Jaro.jaroSimilarityAt 0 a b = Jaro.jaroSimilarity a b /\
  JaroWinkler.jaroWinklerSimilarityAt 0 a b = JaroWinkler.jaroWinklerSimilarity a b.
Proof.
  intros Ha Hb.
  assert (Hd : maxDistOf (length a) (length b) = (-1)%Z).
  { unfold maxDistOf.
    assert (H : Nat.max (length a) (length b) = 0 \/ Nat.max (length a) (length b) = 1) by lia.
    destruct H as [-> | ->]; reflexivity. }
  split; [assumption|].
  unfold Jaro.jaroSimilarity, JaroWinkler.jaroWinklerSimilarity,
    Jaro.jaroSimilarityAt, JaroWinkler.jaroWinklerSimilarityAt.
  unfold strEq. destruct (decide (a = b)) as [->|Hne].
  - rewrite bool_decide_eq_true_2 by reflexivity. repeat split; reflexivity.
  - rewrite bool_decide_eq_false_2 by assumption.
    rewrite !(jaroCore_short _ a b Ha Hb Hne). repeat split; reflexivity.
Qed.

Lemma similarity_of_short_strings_witness :
  length (js "a") <= 1 /\ length (js "b") <= 1 /\
  maxDistOf (length (js "a")) (length (js "b")) = (-1)%Z /\
  Jaro.jaroSimilarity (js "a") (js "b")
    = Some (if strEq (js "a") (js "b") then 1 else 0)%Q /\
  JaroWinkler.jaroWinklerSimilarity (js "a") (js "b")
    = Some (if strEq (js "a") (js "b") then 1 else 0)%Q /\
  Jaro.jaroSimilarityAt 0 (js "a") (js "b") = Jaro.jaroSimilarity (js "a") (js "b") /\
  JaroWinkler.jaroWinklerSimilarityAt 0 (js "a") (js "b")
    = JaroWinkler.jaroWinklerSimilarity (js "a") (js "b").
Proof.
  split; [simpl; lia|]. split; [simpl; lia|].
  apply (similarity_of_short_strings (js "a") (js "b")); simpl; lia.
Defined.

(** ** The windows and the search *)

Lemma toWindows_short (h : jsstring) size :
  length h < size -> toWindows h size = [h].
Proof. intros H. unfold toWindows. rewrite bool_decide_eq_true_2 by assumption. reflexivity. Qed.

Lemma toWindows_lookup (h : jsstring) size j w :
  size <= length h ->
  toWindows h size !! j = Some w ->
  j <= length h - size /\ w = slice h j (j + size).
Proof.
  intros H Hj. unfold toWindows in Hj.
  rewrite bool_decide_eq_false_2 in Hj by lia.
  rewrite list_lookup_fmap in Hj.
  destruct (seq 0 (S (length h - size)) !! j) as [i|] eqn:E; [|discriminate].
  apply lookup_seq in E as [-> Hlt]. simpl in Hj. injection Hj as <-.
  split; [lia | reflexivity].
Qed.

Lemma toWindows_window_length (h : jsstring) size j w :
  size <= length h -> toWindows h size !! j = Some w -> length w = size.
Proof.
  intros H Hj. apply toWindows_lookup in Hj as [Hle ->]; [|assumption].
  unfold slice. rewrite length_take, length_drop. lia.
Qed.

Lemma toWindows_count (h : jsstring) size :
  size <= length h -> length (toWindows h size) = length h - size + 1.
Proof.
  intros H. unfold toWindows. rewrite bool_decide_eq_false_2 by lia.
  rewrite length_map, length_seq. lia.
Qed.

Lemma toWindows_first (h : jsstring) size :
  exists w0, toWindows h size !! 0 = Some w0.
Proof.
  unfold toWindows. destruct (bool_decide (length h < size)); simpl; eauto.
Qed.

Section SearchProps.

Variable sim : jsstring -> jsstring -> option Q.
Hypothesis sim_total : forall a b, exists q, sim a b = Some q.
Variable toFind : jsstring.

Lemma reduce_from : forall (l pre : list jsstring) (p : nat * Q),
  BestUpTo sim (pre ++ l) toFind (length pre) p ->
  exists p',
    fold_left (reduceStep sim toFind)
              (combine (seq (length pre) (length l)) l) (Some p) = Some p' /\
    BestUpTo sim (pre ++ l) toFind (length (pre ++ l)) p'.
Proof.
  induction l as [|x l IH]; intros pre p B.
  - exists p. rewrite app_nil_r in *. split; [reflexivity | assumption].
  - simpl length. rewrite <- cons_seq. simpl combine. rewrite fold_left_step.
    destruct (sim_total x toFind) as [d Hd].
    assert (Hx : (pre ++ x :: l) !! length pre = Some x) by apply list_lookup_middle, eq_refl.
    destruct B as ((wk & Hwk & Hsk) & Hk & Hbest).
    set (p' := match (snd p ?= d)%Q with Lt => (length pre, d) | _ => p end).
    assert (Hstep : reduceStep sim toFind (Some p) (length pre, x) = Some p').
    { unfold reduceStep. simpl. rewrite Hd. reflexivity. }
    rewrite Hstep.
    assert (B' : BestUpTo sim ((pre ++ [x]) ++ l) toFind (length (pre ++ [x])) p').
    { rewrite <- app_assoc. simpl app. rewrite length_app. simpl length.
      replace (length pre + 1) with (S (length pre)) by lia.
      unfold p'. destruct (snd p ?= d)%Q eqn:Ecmp.
      - (* equal scores: the incumbent stays *)
        apply Qeq_alt in Ecmp.
        split; [eauto|]. split; [lia|].
        intros j wj dj Hj Hwj Hdj.
        destruct (decide (j = length pre)) as [->|Hne].
        + rewrite Hx in Hwj. injection Hwj as <-. rewrite Hd in Hdj. injection Hdj as <-.
          split; [rewrite Ecmp; apply Qle_refl | lia].
        + apply (Hbest j wj dj); [lia | assumption | assumption].
      - (* a strictly greater score: the new window replaces it *)
        apply Qlt_alt in Ecmp. unfold BestUpTo. simpl.
        split; [eauto|]. split; [lia|].
        intros j wj dj Hj Hwj Hdj.
        destruct (decide (j = length pre)) as [->|Hne].
        + rewrite Hx in Hwj. injection Hwj as <-. rewrite Hd in Hdj. injection Hdj as <-.
          split; [apply Qle_refl | lia].
        + destruct (Hbest j wj dj) as [Hle _]; [lia | assumption | assumption |].
          split; [apply Qlt_le_weak | intros _]; eapply Qle_lt_trans; eassumption.
      - (* a smaller score: the incumbent stays *)
        apply Qgt_alt in Ecmp.
        split; [eauto|]. split; [lia|].
        intros j wj dj Hj Hwj Hdj.
        destruct (decide (j = length pre)) as [->|Hne].
        + rewrite Hx in Hwj. injection Hwj as <-. rewrite Hd in Hdj. injection Hdj as <-.
          split; [apply Qlt_le_weak; assumption | lia].
        + apply (Hbest j wj dj); [lia | assumption | assumption]. }
    specialize (IH (pre ++ [x]) p' B').
    rewrite <- app_assoc in IH. simpl app in IH.
    replace (length (pre ++ [x])) with (S (length pre)) in IH
      by (rewrite length_app; simpl; lia).
    exact IH.
Qed.

Lemma closest_spec (ws : list jsstring) w0 :
  ws !! 0 = Some w0 ->
  exists p, closest sim ws toFind = Some p /\
            BestUpTo sim ws toFind (length ws) p.
Proof.
  intros H0. unfold closest. rewrite H0.
  destruct (sim_total w0 toFind) as [d0 Hd0]. rewrite Hd0.
  destruct (reduce_from ws [] (0, d0)) as (p' & Hf & B).
  - split; [simpl; eauto|]. split; [simpl; lia|]. intros j wj dj Hj. simpl in Hj. lia.
  - simpl in Hf, B. eauto.
Qed.

Lemma fuzzySearchWith_spec (input : jsstring) :
  exists w,
    fuzzySearchWith sim input toFind = Some w /\
    LeftmostBest sim (toWindows (collapseLineBreaks input) (length toFind)) toFind w /\
    (length toFind <= length (collapseLineBreaks input) -> length w = length toFind) /\
    (length (collapseLineBreaks input) < length toFind -> w = collapseLineBreaks input).
Proof.
  unfold fuzzySearchWith.
  set (h := collapseLineBreaks input). set (ws := toWindows h (length toFind)).
  destruct (toWindows_first h (length toFind)) as [w0 H0]. fold ws in H0.
  destruct (closest_spec ws w0 H0) as ([k dk] & Hc & (wk & Hwk & Hsk) & Hk & Hbest).
  rewrite Hc. simpl in *. exists wk. split; [assumption|]. split; [|split].
  - exists k, dk. repeat split; try assumption.
    + apply (Hbest j wj dj); [eapply lookup_lt_Some; eassumption | assumption | assumption].
    + apply (Hbest j wj dj); [eapply lookup_lt_Some; eassumption | assumption | assumption].
  - intros Hle. eapply toWindows_window_length; eassumption.
  - intros Hlt. unfold ws in Hwk. rewrite toWindows_short in Hwk by assumption.
    destruct k; simpl in Hwk; [congruence | discriminate].
Qed.

End SearchProps.

(** ** The rounding of binary64 *)

Section RoundingOfQuotients.

#[local] Open Scope Z_scope.

(** [roundHalfEven num den] is an integer nearest to [num / den], the even
    one when two are equally near; it is monotone and leaves integers
    alone. *)
Lemma roundHalfEven_nearest num den :
  0 < den -> 2 * Z.abs (num - roundHalfEven num den * den) <= den.
Proof.
  intros Hd. unfold roundHalfEven.
  pose proof (Z.div_mod num den ltac:(lia)) as E.
  pose proof (Z.mod_pos_bound num den Hd) as B.
  destruct (Z.compare_spec (2 * (num mod den)) den) as [H|H|H];
    [destruct (Z.even (num / den))| |]; nia.
Qed.

Lemma roundHalfEven_exact k den : 0 < den -> roundHalfEven (k * den) den = k.
Proof.
  intros Hd. unfold roundHalfEven.
  rewrite Z.mod_mul, Z.div_mul by lia.
  destruct (Z.compare_spec (2 * 0) den); [lia | reflexivity | lia].
Qed.

Lemma roundHalfEven_mono a b den :
  0 < den -> a <= b -> roundHalfEven a den <= roundHalfEven b den.
Proof.
  intros Hd Hab.
  pose proof (roundHalfEven_nearest a den Hd) as Ha.
  pose proof (roundHalfEven_nearest b den Hd) as Hb.
  destruct (Z_le_gt_dec (roundHalfEven a den) (roundHalfEven b den)) as [|G]; [assumption|exfalso].
  (* ra >= rb + 1;  a >= ra*den - den/2, b <= rb*den + den/2 => a>=b, so a = b *)
  assert (a = b) by nia. subst. lia.
Qed.

End RoundingOfQuotients.

Section RoundingOfRationals.

#[local] Open Scope Q_scope.

Lemma pow2_pos (e : Z) : 0 < 2 ^ e.
Proof. apply Qpower_0_lt. reflexivity. Qed.

Lemma pow2_Z (k : Z) : (0 <= k)%Z -> inject_Z (2 ^ k) == 2 ^ k.
Proof. intros H. apply (Zpower_Qpower 2 k H). Qed.

Lemma pow2_neg_Z (k : Z) : (k <= 0)%Z -> 2 ^ k * inject_Z (2 ^ (- k)) == 1.
Proof.
  intros H. rewrite pow2_Z by lia. rewrite Qpower_opp.
  apply Qmult_inv_r. pose proof (pow2_pos k). lra.
Qed.

Lemma pow2_add (a b : Z) : 2 ^ (a + b) == 2 ^ a * 2 ^ b.
Proof. apply Qpower_plus. discriminate. Qed.

Lemma pow2_succ (k : Z) : 2 ^ (k + 1) == 2 * 2 ^ k.
Proof. rewrite pow2_add. change (2 ^ 1) with 2. ring. Qed.

Lemma pow2_le (a b : Z) : (a <= b)%Z -> 2 ^ a <= 2 ^ b.
Proof. intros H. apply Qpower_le_compat_l; [assumption | discriminate]. Qed.

Lemma scale_le (p m D N : Q) :
  0 < p -> p * m == 1 -> (D <= N * m <-> p * D <= N).
Proof.
  intros Hp E.
  assert (Hm : 0 < m).
  { destruct (Qlt_le_dec 0 m) as [|Hm]; [assumption|exfalso].
    assert (p * m <= 0) by nra. lra. }
  split; intros H.
  - assert (H1 : p * D <= p * (N * m)) by (apply Qmult_le_l; assumption).
    assert (H2 : p * (N * m) == N) by (transitivity (N * (p * m)); [ring | rewrite E; ring]).
    rewrite H2 in H1. exact H1.
  - assert (H1 : m * (p * D) <= m * N) by (apply Qmult_le_l; assumption).
    assert (H2 : m * (p * D) == D) by (transitivity (D * (p * m)); [ring | rewrite E; ring]).
    rewrite H2 in H1. rewrite (Qmult_comm N m). exact H1.
Qed.

Lemma scale_lt (p m D N : Q) :
  0 < p -> p * m == 1 -> (N * m < D <-> N < p * D).
Proof.
  intros Hp E. pose proof (scale_le p m D N Hp E) as [H1 H2].
  split; intros H.
  - apply Qnot_le_lt. intros C. apply H2 in C. lra.
  - apply Qnot_le_lt. intros C. apply H1 in C. lra.
Qed.

Lemma reaches_iff (n d l : Z) :
  (if (0 <=? l)%Z then (d * 2 ^ l <=? n)%Z else (d <=? n * 2 ^ (- l))%Z) = true
  <-> 2 ^ l * inject_Z d <= inject_Z n.
Proof.
  destruct (Z.leb_spec 0 l) as [Hl|Hl].
  - rewrite Z.leb_le, Zle_Qle, inject_Z_mult, pow2_Z by assumption.
    split; intros H; lra.
  - rewrite Z.leb_le, Zle_Qle, inject_Z_mult.
    apply scale_le; [apply pow2_pos | apply pow2_neg_Z; lia].
Qed.

Lemma log2_bounds (n : Z) :
  (0 < n)%Z -> 2 ^ Z.log2 n <= inject_Z n /\ inject_Z n < 2 * 2 ^ Z.log2 n.
Proof.
  intros Hn. destruct (Z.log2_spec n Hn) as [L U].
  pose proof (Z.log2_nonneg n) as H0.
  rewrite <- pow2_succ, <- !pow2_Z by lia.
  rewrite <- Zle_Qle, <- Zlt_Qlt. split; [exact L | exact U].
Qed.

(** [exponent64 n d] is the exponent of binary64 for [n / d]: not below
    -1074, with [n / d] below [2 ^ (e + 53)], and not below [2 ^ (e + 52)]
    unless [e] is -1074 (the subnormal numbers). *)
Lemma exponent64_spec (n d : Z) :
  (0 < n)%Z -> (0 < d)%Z ->
  (-1074 <= exponent64 n d)%Z /\
  inject_Z n < 2 ^ (exponent64 n d + 53) * inject_Z d /\
  ((-1074 < exponent64 n d)%Z ->
   2 ^ (exponent64 n d + 52) * inject_Z d <= inject_Z n).
Proof.
  intros Hn Hd. unfold exponent64.
  set (l := (Z.log2 n - Z.log2 d)%Z).
  destruct (log2_bounds n Hn) as [Ln Un].
  destruct (log2_bounds d Hd) as [Ld Ud].
  assert (El : 2 ^ Z.log2 n == 2 ^ l * 2 ^ Z.log2 d).
  { rewrite <- pow2_add. unfold l. replace (Z.log2 n - Z.log2 d + Z.log2 d)%Z with (Z.log2 n) by lia. reflexivity. }
  pose proof (pow2_pos l) as Pl. pose proof (pow2_pos (Z.log2 d)) as Pd.
  assert (Dpos : 0 < inject_Z d) by (change 0 with (inject_Z 0); rewrite <- Zlt_Qlt; exact Hd).
  pose proof (reaches_iff n d l) as R.
  destruct (if (0 <=? l)%Z then (d * 2 ^ l <=? n)%Z else (d <=? n * 2 ^ (- l))%Z) eqn:T.
  - assert (Hr : 2 ^ l * inject_Z d <= inject_Z n) by (apply R; reflexivity).
    assert (U1 : inject_Z n < 2 ^ (l - 52 + 53) * inject_Z d).
    { replace (l - 52 + 53)%Z with (l + 1)%Z by lia. rewrite pow2_succ.
      set (a := 2 ^ l) in *. set (b := 2 ^ Z.log2 d) in *. nra. }
    split; [lia|]. split.
    + apply Qlt_le_trans with (1 := U1). apply Qmult_le_r; [assumption|].
      apply pow2_le. lia.
    + intros G. replace (Z.max (l - 52) (-1074)) with (l - 52)%Z by lia.
      replace (l - 52 + 52)%Z with l by lia. exact Hr.
  - assert (Hr : inject_Z n < 2 ^ l * inject_Z d).
    { apply Qnot_le_lt. intros C. apply R in C. discriminate. }
    split; [lia|]. split.
    + apply Qlt_le_trans with (1 := Hr). apply Qmult_le_r; [assumption|].
      apply pow2_le. lia.
    + intros G. replace (Z.max (l - 53) (-1074)) with (l - 53)%Z by lia.
      replace (l - 53 + 52)%Z with (l - 1)%Z by lia.
      assert (E1 : 2 ^ l == 2 * 2 ^ (l - 1)).
      { rewrite <- pow2_succ. replace (l - 1 + 1)%Z with l by lia. reflexivity. }
      pose proof (pow2_pos (l - 1)) as P1.
      set (a := 2 ^ l) in *. set (b := 2 ^ Z.log2 d) in *. set (c := 2 ^ (l - 1)) in *.
      set (N := inject_Z n) in *. set (D := inject_Z d) in *. set (A := 2 ^ Z.log2 n) in *.
      nra.
Qed.

Lemma roundHalfEven_tie_even num den :
  (0 < den)%Z -> (2 * Z.abs (num - roundHalfEven num den * den) = den)%Z ->
  Z.even (roundHalfEven num den) = true.
Proof.
  intros Hd. unfold roundHalfEven.
  pose proof (Z.div_mod num den ltac:(lia)) as E.
  pose proof (Z.mod_pos_bound num den Hd) as B.
  destruct (Z.compare_spec (2 * (num mod den)) den) as [H|H|H].
  - intros _. destruct (Z.even (num / den)) eqn:Ev; [exact Ev|].
    rewrite Z.even_add, Ev. reflexivity.
  - intros T. exfalso. nia.
  - intros T. exfalso. nia.
Qed.

Lemma nearest_scaled (x P : Q) (num den sig : Z) :
  0 < P -> (0 < den)%Z ->
  inject_Z num * P == x * inject_Z den ->
  (2 * Z.abs (num - sig * den) <= den)%Z ->
  Qabs (x - inject_Z sig * P) <= P * (1 # 2) /\
  (Qabs (x - inject_Z sig * P) == P * (1 # 2) ->
   (2 * Z.abs (num - sig * den) = den)%Z).
Proof.
  intros HP Hden E Hn.
  assert (HD : 0 < inject_Z den) by (change 0 with (inject_Z 0); rewrite <- Zlt_Qlt; exact Hden).
  set (t := (num - sig * den)%Z) in *.
  assert (Et : (x - inject_Z sig * P) * inject_Z den == inject_Z t * P).
  { unfold t. unfold Z.sub. rewrite inject_Z_plus, inject_Z_opp, inject_Z_mult.
    transitivity (x * inject_Z den - inject_Z sig * inject_Z den * P); [ring|].
    rewrite <- E. ring. }
  assert (Ht : - inject_Z den <= 2 * inject_Z t <= inject_Z den).
  { change 2 with (inject_Z 2). rewrite <- inject_Z_mult, <- inject_Z_opp, <- !Zle_Qle. lia. }
  set (y := x - inject_Z sig * P) in *. set (D := inject_Z den) in *. set (T := inject_Z t) in *.
  assert (Hy : - (P * (1 # 2)) <= y <= P * (1 # 2)).
  { split.
    - apply Qnot_lt_le. intros C.
      assert (0 < (- (P * (1 # 2)) - y) * D) by (apply Qmult_lt_0_compat; lra).
      assert (0 <= P * (2 * T + D)) by (apply Qmult_le_0_compat; lra).
      lra.
    - apply Qnot_lt_le. intros C.
      assert (0 < (y - P * (1 # 2)) * D) by (apply Qmult_lt_0_compat; lra).
      assert (0 <= P * (D - 2 * T)) by (apply Qmult_le_0_compat; lra).
      lra. }
  split; [apply Qabs_Qle_condition; exact Hy|].
  intros Tie.
  assert (Hc : 2 * T == D \/ 2 * T == - D).
  { destruct (Qlt_le_dec y 0) as [Neg|Pos].
    - right. rewrite Qabs_neg in Tie by lra.
      assert (Ey : y == - (P * (1 # 2))) by lra.
      rewrite Ey in Et.
      assert (P * (2 * T + D) == 0) by lra.
      destruct (Qmult_integral _ _ H) as [H0|H0]; lra.
    - left. rewrite Qabs_pos in Tie by lra.
      rewrite Tie in Et.
      assert (P * (2 * T - D) == 0) by lra.
      destruct (Qmult_integral _ _ H) as [H0|H0]; lra. }
  unfold T, D in Hc. change 2 with (inject_Z 2) in Hc.
  rewrite <- inject_Z_mult, <- inject_Z_opp, !inject_Z_injective in Hc.
  lia.
Qed.

Lemma Q_num_den (x : Q) : x * inject_Z (Zpos (Qden x)) == inject_Z (Qnum x).
Proof. destruct x as [a b]. unfold Qeq, Qmult, inject_Z. simpl. lia. Qed.

(** [round64 x] is a multiple [m * 2 ^ e] of the unit in the last place with
    a significand [m] of at most 53 bits, at most half a unit away from [x],
    and with an even significand when it is exactly half a unit away. *)
Lemma round64_spec (x : Q) :
  0 < x ->
  exists m : Z,
    round64 x == inject_Z m * 2 ^ exponent64 (Qnum x) (Zpos (Qden x)) /\
    Qabs (x - round64 x) <= 2 ^ exponent64 (Qnum x) (Zpos (Qden x)) * (1 # 2) /\
    (Qabs (x - round64 x) == 2 ^ exponent64 (Qnum x) (Zpos (Qden x)) * (1 # 2) ->
     Z.even m = true) /\
    (0 <= m <= 2 ^ 53)%Z /\
    ((-1074 < exponent64 (Qnum x) (Zpos (Qden x)))%Z -> (2 ^ 52 <= m)%Z).
Proof.
  intros Hx.
  assert (Hn : (0 < Qnum x)%Z) by (unfold Qlt in Hx; simpl in Hx; lia).
  pose proof (Q_num_den x) as X.
  unfold round64. rewrite (Z.abs_eq (Qnum x)) by lia.
  destruct (Z.eqb_spec (Qnum x) 0) as [?|_]; [lia|].
  destruct (Z.ltb_spec (Qnum x) 0) as [?|_]; [lia|].
  set (n := Qnum x) in *. set (d := Zpos (Qden x)) in *.
  assert (Hd : (0 < d)%Z) by (unfold d; lia).
  destruct (exponent64_spec n d Hn Hd) as (E0 & EU & EL).
  set (e := exponent64 n d) in *.
  pose proof (pow2_pos e) as HP.
  assert (E53 : 2 ^ (e + 53) == 2 ^ e * inject_Z (2 ^ 53)).
  { rewrite pow2_add, (pow2_Z 53) by lia. reflexivity. }
  assert (E52 : 2 ^ (e + 52) == 2 ^ e * inject_Z (2 ^ 52)).
  { rewrite pow2_add, (pow2_Z 52) by lia. reflexivity. }
  rewrite E53 in EU. rewrite E52 in EL.
  destruct (Z.leb_spec 0 e) as [He|He].
  - assert (Hp : (0 < 2 ^ e)%Z) by (apply Z.pow_pos_nonneg; lia).
    assert (Hden : (0 < d * 2 ^ e)%Z) by lia.
    exists (roundHalfEven n (d * 2 ^ e)).
    assert (V : inject_Z (roundHalfEven n (d * 2 ^ e) * 2 ^ e)
                == inject_Z (roundHalfEven n (d * 2 ^ e)) * 2 ^ e).
    { rewrite inject_Z_mult, pow2_Z by lia. reflexivity. }
    assert (R : inject_Z n * 2 ^ e == x * inject_Z (d * 2 ^ e)).
    { rewrite inject_Z_mult, pow2_Z by lia. rewrite <- X. ring. }
    destruct (nearest_scaled x (2 ^ e) n (d * 2 ^ e) (roundHalfEven n (d * 2 ^ e))
                HP Hden R (roundHalfEven_nearest _ _ Hden)) as [Near Tie].
    assert (EUz : (n < 2 ^ 53 * (d * 2 ^ e))%Z).
    { rewrite Zlt_Qlt, !inject_Z_mult, (pow2_Z e) by lia.
      eapply Qlt_le_trans; [exact EU|]. apply Qle_lteq; right; ring. }
    split; [exact V|]. split; [rewrite V; exact Near|].
    split; [rewrite V; intros T; apply roundHalfEven_tie_even; [exact Hden | apply Tie, T]|].
    split.
    + split.
      * rewrite <- (roundHalfEven_exact 0 (d * 2 ^ e) Hden).
        apply roundHalfEven_mono; lia.
      * rewrite <- (roundHalfEven_exact (2 ^ 53) (d * 2 ^ e) Hden) at 1.
        apply roundHalfEven_mono; lia.
    + intros G. specialize (EL G).
      assert (ELz : (2 ^ 52 * (d * 2 ^ e) <= n)%Z).
      { rewrite Zle_Qle, !inject_Z_mult, (pow2_Z e) by lia.
        eapply Qle_trans; [|exact EL]. apply Qle_lteq; right; ring. }
      rewrite <- (roundHalfEven_exact (2 ^ 52) (d * 2 ^ e) Hden) at 1.
      apply roundHalfEven_mono; lia.
  - assert (Hp : (0 < 2 ^ (- e))%Z) by (apply Z.pow_pos_nonneg; lia).
    pose proof (pow2_neg_Z e ltac:(lia)) as PM.
    exists (roundHalfEven (n * 2 ^ (- e)) d).
    assert (V : Qmake (roundHalfEven (n * 2 ^ (- e)) d) (Z.to_pos (2 ^ (- e)))
                == inject_Z (roundHalfEven (n * 2 ^ (- e)) d) * 2 ^ e).
    { rewrite Qmake_Qdiv, Z2Pos.id by exact Hp.
      assert (M0 : ~ inject_Z (2 ^ (- e)) == 0).
      { intros C. rewrite C in PM. lra. }
      apply (Qmult_inj_r _ _ (inject_Z (2 ^ (- e))) M0).
      rewrite <- (Qmult_assoc _ (2 ^ e)), PM.
      rewrite Qmult_comm, Qmult_div_r by exact M0. ring. }
    assert (R : inject_Z (n * 2 ^ (- e)) * 2 ^ e == x * inject_Z d).
    { rewrite inject_Z_mult, X, <- Qmult_assoc, (Qmult_comm (inject_Z (2 ^ (- e)))), PM. ring. }
    destruct (nearest_scaled x (2 ^ e) (n * 2 ^ (- e)) d (roundHalfEven (n * 2 ^ (- e)) d)
                HP Hd R (roundHalfEven_nearest _ _ Hd)) as [Near Tie].
    assert (EU' : (n * 2 ^ (- e) < 2 ^ 53 * d)%Z).
    { rewrite Zlt_Qlt, !inject_Z_mult.
      apply (scale_lt (2 ^ e) (inject_Z (2 ^ (- e))) _ _ HP PM).
      eapply Qlt_le_trans; [exact EU|]. apply Qle_lteq; right; ring. }
    split; [exact V|]. split; [rewrite V; exact Near|].
    split; [rewrite V; intros T; apply roundHalfEven_tie_even; [exact Hd | apply Tie, T]|].
    split.
    + split.
      * rewrite <- (roundHalfEven_exact 0 d Hd).
        apply roundHalfEven_mono; lia.
      * rewrite <- (roundHalfEven_exact (2 ^ 53) d Hd) at 1.
        apply roundHalfEven_mono; lia.
    + intros G. specialize (EL G).
      assert (ELz : (2 ^ 52 * d <= n * 2 ^ (- e))%Z).
      { rewrite Zle_Qle, !inject_Z_mult.
        apply (scale_le (2 ^ e) (inject_Z (2 ^ (- e))) _ _ HP PM).
        eapply Qle_trans; [|exact EL]. apply Qle_lteq; right; ring. }
      rewrite <- (roundHalfEven_exact (2 ^ 52) d Hd) at 1.
      apply roundHalfEven_mono; lia.
Qed.

Lemma round64_opp (x : Q) : round64 (- x) == - round64 x.
Proof.
  unfold round64. destruct x as [a b]. simpl. rewrite Z.abs_opp.
  destruct (Z.eqb_spec (Z.abs a) 0) as [|N]; [reflexivity|].
  destruct (Z.ltb_spec (- a) 0), (Z.ltb_spec a 0); try lia.
  - reflexivity.
  - rewrite Qopp_opp. reflexivity.
Qed.

End RoundingOfRationals.



(** Two windows whose exact scores are equal can have binary64 scores one
    unit in the last place apart, and the search then returns the later
    one: 8/9 is the exact score of both "badcef" and " abcde" against
    "abcdef", and 5/6 the exact Jaro-Winkler score of both "abxy" and "xabc"
    against "abcd".  The search is therefore stated on the binary64 scores. *)
Example fuzzySearch_binary64_examples :
  scoreIs (Jaro.jaroSimilarity (js "badcef") (js "abcdef")) (8 # 9) /\
  scoreIs (Jaro.jaroSimilarity (js " abcde") (js "abcdef")) (8 # 9) /\
  scoreIs (Binary64.jaroSimilarity (js "badcef") (js "abcdef"))
          (8006399337547548 # 9007199254740992) /\
  scoreIs (Binary64.jaroSimilarity (js " abcde") (js "abcdef"))
          (8006399337547549 # 9007199254740992) /\
  Binary64.fuzzySearch (js "badcef abcdeX") (js "abcdef") = Some (js " abcde") /\
  Jaro.fuzzySearch (js "badcef abcdeX") (js "abcdef") = Some (js "badcef") /\
  Binary64.fuzzySearchJaroWinkler (js "abxy xabc") (js "abcd") = Some (js "xabc") /\
  JaroWinkler.fuzzySearch (js "abxy xabc") (js "abcd") = Some (js "abxy") /\
  Binary64.fuzzySearch sentence (js "fxo") = Some (js "bro") /\
  Binary64.fuzzySearchJaroWinkler sentence (js "fxo") = Some (js "bro").
Proof.
  repeat split; try (vm_compute; reflexivity);
    (eexists; split; [vm_compute; reflexivity | reflexivity]).
Qed.


(** ** The unit test of [fuzzySearch] *)

(** C3: on the sentence of the unit test and the needle "fxo" both variants
    of [fuzzySearch] return the window "bro", not "fox": the two windows
    have the same score (5/9 by [jaroSimilarity], 2/3 by
    [jaroWinklerSimilarity]), "bro" is at index 10 and "fox" at index 16, and
    a tie keeps the earlier window.  With the boost of the common prefix, as
    the doc comment of [jaroWinklerSimilarity] has it, "bro" scores 5/9,
    "fox" scores 2/3 and the search returns "fox". *)
Theorem fuzzySearch_fxo_returns_bro :
  Jaro.fuzzySearch sentence (js "fxo") = Some (js "bro") /\
  JaroWinkler.fuzzySearch sentence (js "fxo") = Some (js "bro") /\
  toWindows (collapseLineBreaks sentence) 3 !! 10 = Some (js "bro") /\
  toWindows (collapseLineBreaks sentence) 3 !! 16 = Some (js "fox") /\
  scoreIs (Jaro.jaroSimilarity (js "bro") (js "fxo")) (5 # 9) /\
  scoreIs (Jaro.jaroSimilarity (js "fox") (js "fxo")) (5 # 9) /\
  scoreIs (JaroWinkler.jaroWinklerSimilarity (js "bro") (js "fxo")) (2 # 3) /\
  scoreIs (JaroWinkler.jaroWinklerSimilarity (js "fox") (js "fxo")) (2 # 3) /\
  scoreIs (jaroWinklerAsDocumented (js "bro") (js "fxo")) (5 # 9) /\
  scoreIs (jaroWinklerAsDocumented (js "fox") (js "fxo")) (2 # 3) /\
  fuzzySearchWith jaroWinklerAsDocumented sentence (js "fxo") = Some (js "fox").
Proof.
  repeat split; try (vm_compute; reflexivity);
    (eexists; split; [vm_compute; reflexivity | reflexivity]).
Qed.

(** C4: on "bro" and "fxo", two unequal strings with one match, the boost of
    [jaroWinklerSimilarity] counts the equal characters at index 2, past the
    mismatch at index 0: [prefixLength] is 1 where the common prefix has
    length 0, and the score is 2/3 where the Jaro score with the boost of
    the common prefix is 5/9. *)
Theorem jaroWinkler_boost_counts_past_mismatch :
  js "bro" <> js "fxo" /\
  jaroCore (maxDistOf 3 3) (js "bro") (js "fxo")
    = Some (Some (1, 0, jaroFormula 1 0 3 3)) /\
  scoreIs (Jaro.jaroSimilarity (js "bro") (js "fxo")) (5 # 9) /\
  prefixLength (js "bro") (js "fxo") = 1 /\
  commonPrefixLength 4 (js "bro") (js "fxo") = 0 /\
  scoreIs (JaroWinkler.jaroWinklerSimilarity (js "bro") (js "fxo")) (2 # 3) /\
  (withPrefixBoost (5 # 9) (commonPrefixLength 4 (js "bro") (js "fxo")) == 5 # 9)%Q /\
  ~ scoreIs (JaroWinkler.jaroWinklerSimilarity (js "bro") (js "fxo"))
      (withPrefixBoost (5 # 9) (commonPrefixLength 4 (js "bro") (js "fxo"))).
Proof.
  split; [discriminate|].
  split; [vm_compute; reflexivity|].
  split; [eexists; split; [vm_compute; reflexivity | reflexivity]|].
  split; [reflexivity|]. split; [reflexivity|].
  split; [eexists; split; [vm_compute; reflexivity | reflexivity]|].
  split; [reflexivity|].
  intros (x & Hx & Hq).
  vm_compute in Hx. injection Hx as <-. vm_compute in Hq. discriminate.
Qed.

(** ** The runner *)

Lemma includes_nil (s : jsstring) : includes s [] = true.
Proof. destruct s; reflexivity. Qed.

Lemma normalize_absent (o : option jsstring) :
  strTruthy o = false -> normalizeLineEndings (strOrEmpty o) = [].
Proof. destruct o as [[|c r]|]; simpl; intros H; (discriminate || reflexivity). Qed.

Lemma elapsedMs_hrtimeDiff (start stop : Z) :
  elapsedMs (hrtimeDiff start stop) = ((stop - start) / 1000000)%Z.
Proof.
  unfold elapsedMs, hrtimeDiff. simpl. set (d := (stop - start)%Z).
  rewrite (Z.div_mod d 1000000000) at 3 by lia.
  replace (1000000000 * (d / 1000000000) + d mod 1000000000)%Z
    with (d / 1000000000 * 1000 * 1000000 + d mod 1000000000)%Z by lia.
  rewrite Z.div_add_l by lia. reflexivity.
Qed.

(** The minutes of the budget: [test.timeout || 1]. *)
Lemma minutes_nonzero (o : option Q) :
  ~ ((if minutesTruthy o then match o with Some q => q | None => 1 end else 1) == 0)%Q.
Proof.
  destruct o as [q|]; simpl; [|discriminate].
  destruct (Qeq_bool q 0) eqn:E; simpl; [discriminate|].
  apply Qeq_bool_neq. assumption.
Qed.

Lemma effectiveTimeout_product (test : Test) :
  let minutes := if minutesTruthy (timeout test)
                 then match timeout test with Some q => q | None => 1%Q end
                 else 1%Q in
  ~ (minutes * 60 * 1000 == 0)%Q /\
  effectiveTimeout test = (minutes * 60 * 1000)%Q.
Proof.
  intros minutes.
  assert (Hne : ~ (minutes * 60 * 1000 == 0)%Q).
  { intros H. apply Qmult_integral in H as [H|H]; [|discriminate].
    apply Qmult_integral in H as [H|H]; [|discriminate].
    exact (minutes_nonzero (timeout test) H). }
  split; [assumption|].
  unfold effectiveTimeout. fold minutes.
  destruct (Qeq_bool (minutes * 60 * 1000) 0) eqn:E; [|reflexivity].
  apply Qeq_bool_iff in E. contradiction.
Qed.

(** The tally after a test that declares points. *)
Lemma recordOutcome_with_points (t : SuiteTally) (test : Test) (ok : bool)
    (z : Z) (x : bool) :
  points test = Some z -> (z =? 0)%Z = false -> boolTruthy (extra test) = x ->
  recordOutcome t test ok =
  {| earnedPoints := if ok then (earnedPoints t + z)%Z else earnedPoints t;
     availablePoints := if x then availablePoints t else (availablePoints t + z)%Z;
     passed := if ok then S (passed t) else passed t;
     numtests := S (numtests t);
     hasPoints := true;
     failed := if ok then failed t else if x then failed t else true;
     passing := if ok then passing t ++ [name test] else passing t;
     failing := if ok then failing t else failing t ++ [name test] |}.
Proof.
  intros Hp Hz Hx. unfold recordOutcome, numTruthy. rewrite Hp, Hz, Hx.
  rewrite orb_true_r. destruct ok, x; reflexivity.
Qed.

(** An extra-credit test changes neither the flag [failed] nor
    [availablePoints], whether it passes or fails. *)
Lemma recordOutcome_extra (t : SuiteTally) (test : Test) (ok : bool) :
  boolTruthy (extra test) = true ->
  failed (recordOutcome t test ok) = failed t /\
  availablePoints (recordOutcome t test ok) = availablePoints t.
Proof.
  intros H. unfold recordOutcome. rewrite H, andb_false_r.
  destruct ok; simpl; split; reflexivity.
Qed.

Section RunnerProps.

Variable World : Type.
Variable spawn : World -> jsstring -> option jsstring -> Q -> jsstring * ChildEvent * World.
Variable hrtime : World -> Z * World.
Variable regexMatch : jsstring -> jsstring -> option bool.

Lemma runOne_run (t : SuiteTally) (w w' : World) (test : Test) r :
  run World spawn hrtime regexMatch w test = (r, w') ->
  runOne World spawn hrtime regexMatch (t, w) test = (recordOutcome t test (isOk r), w').
Proof. intros H. unfold runOne. rewrite H. reflexivity. Qed.

Lemma runCommand_exit0 (w w' : World) (test : Test) timeoutMs captured signal :
  spawn w (run_ test) (if strTruthy (input test) then input test else None) timeoutMs
    = (captured, ExitEvent (Some 0%Z) signal, w') ->
  runCommand World spawn regexMatch w test timeoutMs =
  (if negb (strTruthy (output test)) && negb (strTruthy (input test))
   then inr captured else compareOutput regexMatch test captured, w').
Proof.
  intros H. unfold runCommand. rewrite H. simpl.
  destruct (negb (strTruthy (output test)) && negb (strTruthy (input test))); reflexivity.
Qed.

End RunnerProps.

(** C9: when neither [input] nor [output] holds text and the process exits
    with code 0, [runCommand] returns the captured output, whatever that
    output, the comparison mode and the pattern matcher are. *)
Theorem runCommand_without_expectation
    (World : Type)
    (spawn : World -> jsstring -> option jsstring -> Q -> jsstring * ChildEvent * World)
    (regexMatch : jsstring -> jsstring -> option bool)
    (w w' : World) (test : Test) (timeoutMs : Q)
    (captured : jsstring) (signal : option jsstring) :
  strTruthy (input test) = false ->
  strTruthy (output test) = false ->
  spawn w (run_ test) None timeoutMs = (captured, ExitEvent (Some 0%Z) signal, w') ->
  runCommand World spawn regexMatch w test timeoutMs = (inr captured, w').
Proof.
  intros Hin Hout Hsp.
  rewrite (runCommand_exit0 World spawn regexMatch w w' test timeoutMs captured signal).
  - rewrite Hin, Hout. reflexivity.
  - rewrite Hin. assumption.
Qed.

Lemma runCommand_without_expectation_witness :
  strTruthy (input (silentTest (Some Exact))) = false /\
  strTruthy (output (silentTest (Some Exact))) = false /\
  demoSpawn 0%Z (run_ (silentTest (Some Exact))) None 60000%Q
    = (js "Hello world" ++ [LF], ExitEvent (Some 0%Z) None, 1500000000%Z) /\
  runCommand Z demoSpawn demoRegex 0%Z (silentTest (Some Exact)) 60000%Q
    = (inr (js "Hello world" ++ [LF]), 1500000000%Z).
Proof.
  split; [reflexivity|]. split; [reflexivity|]. split; [reflexivity|].
  apply (runCommand_without_expectation Z demoSpawn demoRegex 0%Z 1500000000%Z
           (silentTest (Some Exact)) 60000%Q (js "Hello world" ++ [LF]) None);
    reflexivity.
Defined.

Section StdinProps.

Variable World : Type.
Variable spawn : World -> jsstring -> option jsstring -> Q
                 -> jsstring * ChildEvent * StdinWrite * World.
Variable regexMatch : jsstring -> jsstring -> option bool.

(** Where nothing is written, and where the child takes what is written,
    [WithStdin.runCommand] settles as [runCommand] does on the same child. *)
Lemma runCommand_input_taken (w : World) (test : Test) (timeoutMs : Q) :
  strTruthy (input test) = false \/
  snd (fst (spawn w (run_ test) (input test) timeoutMs)) = InputTaken ->
  WithStdin.runCommand World spawn regexMatch w test timeoutMs =
  (Settled (fst (runCommand World (WithStdin.childOf World spawn) regexMatch
                   w test timeoutMs)),
   snd (runCommand World (WithStdin.childOf World spawn) regexMatch
          w test timeoutMs)).
Proof.
  intros H. unfold WithStdin.runCommand, runCommand, WithStdin.childOf.
  destruct (strTruthy (input test)) eqn:Hin.
  - destruct H as [H|H]; [discriminate|].
    destruct (spawn w (run_ test) (input test) timeoutMs) as [[[captured ev] written] w'].
    simpl in H. subst written.
    destruct (input test); destruct (waitForExit captured ev timeoutMs);
      try reflexivity;
      destruct (negb (strTruthy (output test)) && negb true); reflexivity.
  - destruct (spawn w (run_ test) None timeoutMs) as [[[captured ev] written] w'].
    destruct (waitForExit captured ev timeoutMs); [reflexivity|].
    destruct (negb (strTruthy (output test)) && negb false); reflexivity.
Qed.

(** Where the write of the input fails, the runner ends, whatever the child
    prints and however it exits. *)
Lemma runCommand_broken_pipe (w w' : World) (test : Test) (timeoutMs : Q)
    (captured : jsstring) (ev : ChildEvent) :
  strTruthy (input test) = true ->
  spawn w (run_ test) (input test) timeoutMs = (captured, ev, BrokenPipe, w') ->
  WithStdin.runCommand World spawn regexMatch w test timeoutMs = (RunnerDied, w').
Proof.
  intros Hin Hsp. unfold WithStdin.runCommand. rewrite Hin, Hsp.
  destruct (input test); [reflexivity | discriminate].
Qed.

(** In the mode 'included', which is also the default, a test with text in
    [input] and none in [output] passes when its process takes the input and
    exits with code 0: the shortcut for tests without expectation does not
    apply, the expected text normalizes to the empty string, and every string
    includes the empty string. *)
Lemma included_passes_when_input_is_taken
    (w w' : World) (test : Test) (timeoutMs : Q)
    (captured : jsstring) (signal : option jsstring) :
  comparison test = Some Included \/ comparison test = None ->
  strTruthy (input test) = true ->
  strTruthy (output test) = false ->
  spawn w (run_ test) (input test) timeoutMs
    = (captured, ExitEvent (Some 0%Z) signal, InputTaken, w') ->
  WithStdin.runCommand World spawn regexMatch w test timeoutMs
    = (Settled (inr captured), w') /\
  negb (strTruthy (output test)) && negb (strTruthy (input test)) = false /\
  normalizeLineEndings (strOrEmpty (output test)) = [] /\
  includes (normalizeLineEndings captured)
           (normalizeLineEndings (strOrEmpty (output test))) = true /\
  compareOutput regexMatch test captured = inr captured.
Proof.
  intros Hmode Hin Hout Hsp.
  assert (Hcmp : compareOutput regexMatch test captured = inr captured).
  { unfold compareOutput. rewrite (normalize_absent _ Hout), includes_nil.
    destruct Hmode as [-> | ->]; reflexivity. }
  split.
  - unfold WithStdin.runCommand. rewrite Hin, Hsp. simpl.
    rewrite Hout, Hcmp. destruct (input test); reflexivity.
  - rewrite (normalize_absent _ Hout), includes_nil, Hin, Hout, Hcmp.
    repeat split; reflexivity.
Qed.

End StdinProps.

(** C10: a test in the mode 'included' with the input "42", no expected
    output and the command [echo Hello world], which prints, exits with code
    0 and does not read its input.  The comparison succeeds on what is
    printed and the shortcut does not apply, as the claim says; but the write
    of the input fails, no listener takes the error, and the runner ends
    where the claim has the test pass.  The same test with a command that
    reads its input passes. *)
Theorem runCommand_dies_on_unread_input :
  comparison (inputOnlyTest (Some Included)) = Some Included /\
  strTruthy (input (inputOnlyTest (Some Included))) = true /\
  strTruthy (output (inputOnlyTest (Some Included))) = false /\
  demoSpawnStdin 0%Z (run_ (inputOnlyTest (Some Included)))
                 (input (inputOnlyTest (Some Included))) 60000%Q
    = (js "Hello world" ++ [LF], ExitEvent (Some 0%Z) None, BrokenPipe, 1500000000%Z) /\
  negb (strTruthy (output (inputOnlyTest (Some Included))))
    && negb (strTruthy (input (inputOnlyTest (Some Included)))) = false /\
  compareOutput demoRegex (inputOnlyTest (Some Included)) (js "Hello world" ++ [LF])
    = inr (js "Hello world" ++ [LF]) /\
  WithStdin.runCommand Z demoSpawnStdin demoRegex 0%Z
      (inputOnlyTest (Some Included)) 60000%Q
    = (RunnerDied, 1500000000%Z) /\
  WithStdin.runCommand Z demoSpawnStdin demoRegex 0%Z (catTest (Some Included)) 60000%Q
    = (Settled (inr (js "42")), 1500000000%Z) /\
  WithStdin.runCommand Z demoSpawnStdin demoRegex 0%Z (catTest None) 60000%Q
    = (Settled (inr (js "42")), 1500000000%Z).
Proof. repeat split; vm_compute; reflexivity. Qed.

(** C8: when the captured output normalizes to "Hello world", the expected
    output is "Hello" and the process exits with code 0, the test fails with
    the error of a mismatch in the mode 'exact', and passes in the mode
    'included' and in the default mode. *)
Theorem exact_fails_where_included_passes
    (World : Type)
    (spawn : World -> jsstring -> option jsstring -> Q -> jsstring * ChildEvent * World)
    (regexMatch : jsstring -> jsstring -> option bool)
    (w w' : World) (test : Test) (timeoutMs : Q)
    (captured : jsstring) (signal : option jsstring) :
  output test = Some (js "Hello") ->
  normalizeLineEndings captured = js "Hello world" ->
  spawn w (run_ test) (if strTruthy (input test) then input test else None) timeoutMs
    = (captured, ExitEvent (Some 0%Z) signal, w') ->
  runCommand World spawn regexMatch w (withComparison test (Some Exact)) timeoutMs
    = (inl (ExactMismatch (name test) (js "Hello world") (js "Hello")), w') /\
  runCommand World spawn regexMatch w (withComparison test (Some Included)) timeoutMs
    = (inr captured, w') /\
  runCommand World spawn regexMatch w (withComparison test None) timeoutMs
    = (inr captured, w').
Proof.
  intros Hout Hact Hsp.
  assert (Hrun : forall mode,
    runCommand World spawn regexMatch w (withComparison test mode) timeoutMs
    = (compareOutput regexMatch (withComparison test mode) captured, w')).
  { intros mode.
    rewrite (runCommand_exit0 World spawn regexMatch w w' (withComparison test mode)
               timeoutMs captured signal) by exact Hsp.
    simpl. rewrite Hout. reflexivity. }
  rewrite !Hrun. unfold compareOutput. simpl. rewrite Hout, Hact.
  repeat split; reflexivity.
Qed.

Lemma exact_fails_where_included_passes_witness :
  output (helloTest None) = Some (js "Hello") /\
  normalizeLineEndings (js "Hello world" ++ [LF]) = js "Hello world" /\
  demoSpawn 0%Z (run_ (helloTest None))
            (if strTruthy (input (helloTest None)) then input (helloTest None) else None)
            60000%Q
    = (js "Hello world" ++ [LF], ExitEvent (Some 0%Z) None, 1500000000%Z) /\
  runCommand Z demoSpawn demoRegex 0%Z (withComparison (helloTest None) (Some Exact)) 60000%Q
    = (inl (ExactMismatch (name (helloTest None)) (js "Hello world") (js "Hello")),
       1500000000%Z) /\
  runCommand Z demoSpawn demoRegex 0%Z (withComparison (helloTest None) (Some Included)) 60000%Q
    = (inr (js "Hello world" ++ [LF]), 1500000000%Z) /\
  runCommand Z demoSpawn demoRegex 0%Z (withComparison (helloTest None) None) 60000%Q
    = (inr (js "Hello world" ++ [LF]), 1500000000%Z).
Proof.
  split; [reflexivity|]. split; [reflexivity|]. split; [reflexivity|].
  apply (exact_fails_where_included_passes Z demoSpawn demoRegex 0%Z 1500000000%Z
           (helloTest None) 60000%Q (js "Hello world" ++ [LF]) None);
    reflexivity.
Defined.

(** C2: [run] resolves the budget to [(test.timeout || 1) * 60 * 1000]
    milliseconds, which is 60000 when [timeout] is 0 or absent; the fallback
    of 30000 stands for a falsy product only, and the product is never
    falsy.  When the setup step succeeds, the milliseconds between the two
    readings of the clock are taken off the budget, and [runCommand] gets the
    rest, which is never more than the budget. *)
Theorem run_passes_remaining_budget
    (World : Type)
    (spawn : World -> jsstring -> option jsstring -> Q -> jsstring * ChildEvent * World)
    (hrtime : World -> Z * World)
    (regexMatch : jsstring -> jsstring -> option bool)
    (w w1 w2 w3 : World) (test : Test) (start stop : Z) :
  hrtime w = (start, w1) ->
  runSetup World spawn w1 test (effectiveTimeout test) = (inr tt, w2) ->
  hrtime w2 = (stop, w3) ->
  (start <= stop)%Z ->
  let minutes := match timeout test with
                 | Some q => if Qeq_bool q 0 then 1%Q else q
                 | None => 1%Q
                 end in
  let product := (minutes * 60 * 1000)%Q in
  let elapsed := elapsedMs (hrtimeDiff start stop) in
  effectiveTimeout test = (if Qeq_bool product 0 then 30000%Q else product) /\
  ~ (product == 0)%Q /\
  effectiveTimeout test = product /\
  (minutesTruthy (timeout test) = false -> (effectiveTimeout test == 60000)%Q) /\
  elapsed = ((stop - start) / 1000000)%Z /\
  (0 <= elapsed)%Z /\
  run World spawn hrtime regexMatch w test
    = runCommand World spawn regexMatch w3 test
        (effectiveTimeout test - inject_Z elapsed)%Q /\
  (effectiveTimeout test - inject_Z elapsed <= effectiveTimeout test)%Q.
Proof.
  intros Hstart Hsetup Hstop Hmono minutes product elapsed.
  destruct (effectiveTimeout_product test) as [Hne Heff].
  assert (Hmin : minutes = if minutesTruthy (timeout test)
                           then match timeout test with Some q => q | None => 1%Q end
                           else 1%Q).
  { unfold minutes, minutesTruthy. destruct (timeout test) as [q|]; [|reflexivity].
    destruct (Qeq_bool q 0); reflexivity. }
  rewrite <- Hmin in Hne, Heff. fold product in Hne, Heff.
  assert (Hel : elapsed = ((stop - start) / 1000000)%Z)
    by apply elapsedMs_hrtimeDiff.
  assert (Hpos : (0 <= elapsed)%Z) by (rewrite Hel; apply Z.div_pos; lia).
  split.
  { destruct (Qeq_bool product 0) eqn:E; [|assumption].
    apply Qeq_bool_iff in E. contradiction. }
  split; [assumption|]. split; [assumption|].
  split.
  { intros H. rewrite Heff. unfold product. rewrite Hmin, H. reflexivity. }
  split; [assumption|]. split; [assumption|].
  split.
  { unfold run. rewrite Hstart, Hsetup, Hstop. reflexivity. }
  assert (Hq : (0 <= inject_Z elapsed)%Q)
    by (change 0%Q with (inject_Z 0); rewrite <- Zle_Qle; assumption).
  lra.
Qed.

Lemma run_passes_remaining_budget_witness :
  demoHrtime 0%Z = (0%Z, 1000%Z) /\
  runSetup Z demoSpawn 1000%Z (helloTest None) (effectiveTimeout (helloTest None))
    = (inr tt, 1500001000%Z) /\
  demoHrtime 1500001000%Z = (1500001000%Z, 1500002000%Z) /\
  (0 <= 1500001000)%Z /\
  effectiveTimeout (helloTest None) = 120000%Q /\
  elapsedMs (hrtimeDiff 0 1500001000) = 1500%Z /\
  run Z demoSpawn demoHrtime demoRegex 0%Z (helloTest None)
    = runCommand Z demoSpawn demoRegex 1500002000%Z (helloTest None) 118500%Q.
Proof.
  split; [reflexivity|]. split; [reflexivity|]. split; [reflexivity|].
  split; [lia|].
  destruct (run_passes_remaining_budget Z demoSpawn demoHrtime demoRegex
              0%Z 1000%Z 1500001000%Z 1500002000%Z (helloTest None) 0%Z 1500001000%Z)
    as (_ & _ & _ & _ & _ & _ & Hrun & _);
    [reflexivity | reflexivity | reflexivity | lia |].
  split; [reflexivity|]. split; [reflexivity|]. exact Hrun.
Defined.

(** C1: three tests that are not extra credit, worth 10, 20 and 30 points,
    of which the first fails and the other two pass, and then an
    extra-credit test worth 15 points.  [availablePoints] is 60 and [failed]
    is set, after the third test as after the fourth.  When the extra-credit
    test passes, the earned points are 65 and the surplus of 5 is reported
    as extra credit; when it fails they are 50 and no extra credit is
    reported.  On any tally the extra-credit test leaves [failed] and
    [availablePoints] as they are, whether it passes or fails. *)
Theorem runAll_tally_with_extra_credit
    (World : Type)
    (spawn : World -> jsstring -> option jsstring -> Q -> jsstring * ChildEvent * World)
    (hrtime : World -> Z * World)
    (regexMatch : jsstring -> jsstring -> option bool)
    (w0 w1 w2 w3 w4 : World) (t1 t2 t3 tx : Test)
    (e1 : Failure) (o2 o3 : jsstring) (r4 : Result jsstring) :
  points t1 = Some 10%Z -> points t2 = Some 20%Z -> points t3 = Some 30%Z ->
  points tx = Some 15%Z ->
  boolTruthy (extra t1) = false -> boolTruthy (extra t2) = false ->
  boolTruthy (extra t3) = false -> boolTruthy (extra tx) = true ->
  run World spawn hrtime regexMatch w0 t1 = (inl e1, w1) ->
  run World spawn hrtime regexMatch w1 t2 = (inr o2, w2) ->
  run World spawn hrtime regexMatch w2 t3 = (inr o3, w3) ->
  run World spawn hrtime regexMatch w3 tx = (r4, w4) ->
  let before := fst (runAll World spawn hrtime regexMatch w0 [t1; t2; t3]) in
  let after := fst (runAll World spawn hrtime regexMatch w0 [t1; t2; t3; tx]) in
  availablePoints (tally before) = 60%Z /\
  earnedPoints (tally before) = 50%Z /\
  failed (tally before) = true /\
  availablePoints (tally after) = 60%Z /\
  failed (tally after) = true /\
  earnedPoints (tally after) = (if isOk r4 then 65%Z else 50%Z) /\
  extraCreditPoints after = (if isOk r4 then Some 5%Z else None) /\
  pointsOutput after = (if isOk r4 then (65%Z, 60%Z) else (50%Z, 60%Z)) /\
  failing (tally after)
    = (if isOk r4 then [name t1] else [name t1; name tx]) /\
  passing (tally after)
    = (if isOk r4 then [name t2; name t3; name tx] else [name t2; name t3]) /\
  (forall (t : SuiteTally) (ok : bool),
     failed (recordOutcome t tx ok) = failed t /\
     availablePoints (recordOutcome t tx ok) = availablePoints t).
Proof.
  intros P1 P2 P3 Px X1 X2 X3 Xx R1 R2 R3 R4 before after.
  unfold before, after, runAll. cbn [fold_left].
  rewrite (runOne_run _ _ _ _ _ _ _ _ _ R1), (runOne_run _ _ _ _ _ _ _ _ _ R2),
    (runOne_run _ _ _ _ _ _ _ _ _ R3), (runOne_run _ _ _ _ _ _ _ _ _ R4).
  cbn [isOk fst].
  rewrite (recordOutcome_with_points _ _ _ _ _ P1 eq_refl X1).
  cbn [earnedPoints availablePoints passed numtests hasPoints failed passing
       failing tallyInit app Z.add].
  rewrite (recordOutcome_with_points _ _ _ _ _ P2 eq_refl X2).
  cbn [earnedPoints availablePoints passed numtests hasPoints failed passing
       failing app Z.add Pos.add Pos.succ].
  rewrite (recordOutcome_with_points _ _ _ _ _ P3 eq_refl X3).
  cbn [earnedPoints availablePoints passed numtests hasPoints failed passing
       failing app Z.add Pos.add Pos.succ Pos.add_carry].
  rewrite (recordOutcome_with_points _ _ _ _ _ Px eq_refl Xx).
  cbn [earnedPoints availablePoints passed numtests hasPoints failed passing
       failing app Z.add Pos.add Pos.succ Pos.add_carry report tally
       extraCreditPoints pointsOutput].
  repeat split; try (destruct (isOk r4); reflexivity);
    apply recordOutcome_extra; assumption.
Qed.

Lemma runAll_tally_with_extra_credit_witness :
  let after := fst (runAll Z demoSpawn demoHrtime demoRegex 0%Z demoSuite) in
  availablePoints (tally after) = 60%Z /\
  failed (tally after) = true /\
  earnedPoints (tally after) = 65%Z /\
  extraCreditPoints after = Some 5%Z.
Proof.
  destruct (runAll_tally_with_extra_credit Z demoSpawn demoHrtime demoRegex
              0%Z 1500002000%Z 3000004000%Z 4500006000%Z 6000008000%Z
              (demoTest "first" "false" (Some 10%Z) None)
              (demoTest "second" "true" (Some 20%Z) None)
              (demoTest "third" "true" (Some 30%Z) None)
              (demoTest "bonus" "true" (Some 15%Z) (Some true))
              (TestExitError [] (Some 1%Z) None) [] [] (inr []))
    as (_ & _ & _ & Ha & Hf & He & Hx & _); try reflexivity.
  cbv zeta. repeat split; assumption.
Defined.

(** * Further properties of [fuzzySearch.ts] *)

(** ** What the shared body computes *)

Lemma matchedIdx_length_le (f : list bool) : forall r n,
  length (matchedIdx f n r) <= r.
Proof.
  induction r as [|r IH]; intros n; [reflexivity|].
  rewrite matchedIdx_cons. specialize (IH (S n)).
  destruct (truthy (f !! n)); simpl; lia.
Qed.

Lemma matchedIdx_full (f : list bool) : forall r n,
  length (matchedIdx f n r) = r -> matchedIdx f n r = seq n r.
Proof.
  induction r as [|r IH]; intros n H; [reflexivity|].
  rewrite matchedIdx_cons in H |- *.
  pose proof (matchedIdx_length_le f r (S n)) as Hle.
  destruct (truthy (f !! n)); simpl in H.
  - simpl. f_equal. apply IH. lia.
  - lia.
Qed.

Lemma mismatches_le l1 : forall l2, mismatches l1 l2 <= length l1.
Proof.
  induction l1 as [|c r1 IH]; intros [|d r2]; simpl; try lia.
  specialize (IH r2). destruct (charEq c d); lia.
Qed.

Lemma mismatches_zero l1 : forall l2,
  length l1 = length l2 -> mismatches l1 l2 = 0 -> l1 = l2.
Proof.
  induction l1 as [|c r1 IH]; intros [|d r2] Hlen H; simpl in *; try lia; [reflexivity|].
  destruct (charEq c d) eqn:E; [|lia].
  apply charEq_true in E. f_equal; [assumption|]. apply IH; lia.
Qed.

(** The shared body in terms of the final state of the first loop. *)
Lemma jaroCore_data d a b :
  let st := matchLoop a b d in
  let t := mismatches (matchedChars1 a (str1Matches st) 0 (length a))
                      (matchedChars2 b (str2Matches st) 0 (length b)) in
  jaroCore d a b =
    (if matches st =? 0 then Some None
     else Some (Some (matches st, t, jaroFormula (matches st) t (length a) (length b)))) /\
  matches st <= length a /\ matches st <= length b /\ t <= matches st.
Proof.
  intros st t. destruct (matchLoop_inv a b d) as [M I]. fold st in I.
  pose proof (inv_len1 _ _ _ _ _ _ I) as L1.
  pose proof (inv_len2 _ _ _ _ _ _ I) as L2.
  pose proof (inv_count1 _ _ _ _ _ _ I) as C1.
  pose proof (inv_count2 _ _ _ _ _ _ I) as C2.
  split; [|split; [|split]].
  - unfold jaroCore. fold st.
    destruct (matches st =? 0); [reflexivity|].
    destruct (transLoop_spec a b (str1Matches st) (str2Matches st)) as (k' & H).
    + assumption.
    + rewrite L2, <- C1. assumption.
    + rewrite H, L2. reflexivity.
  - rewrite C1. apply matchedIdx_length_le.
  - rewrite C2. apply matchedIdx_length_le.
  - unfold t. etransitivity; [apply mismatches_le|].
    unfold matchedChars1. rewrite length_map, <- C1. reflexivity.
Qed.

(** Where the shared body returns a score, the score divides by the count of
    matches and by the two lengths, and none of them is 0. *)
Lemma jaroCore_counts d a b m t q :
  jaroCore d a b = Some (Some (m, t, q)) ->
  0 < m /\ m <= length a /\ m <= length b /\ t <= m.
Proof.
  intros H. destruct (jaroCore_data d a b) as (E & La & Lb & Lt).
  rewrite E in H. destruct (Nat.eqb_spec (matches (matchLoop a b d)) 0) as [|N];
    [discriminate|].
  injection H as <- <- _. split; [lia|]. split; [exact La|]. split; [exact Lb | exact Lt].
Qed.

(** When every character of both strings is matched and no pair is
    transposed, the strings are equal. *)
Lemma all_matched_in_order d a b :
  let st := matchLoop a b d in
  matches st = length a -> matches st = length b ->
  mismatches (matchedChars1 a (str1Matches st) 0 (length a))
             (matchedChars2 b (str2Matches st) 0 (length b)) = 0 ->
  a = b.
Proof.
  intros st Ha Hb Ht. destruct (matchLoop_inv a b d) as [M I]. fold st in I.
  pose proof (inv_count1 _ _ _ _ _ _ I) as C1.
  pose proof (inv_count2 _ _ _ _ _ _ I) as C2.
  unfold matchedChars1, matchedChars2 in Ht.
  rewrite (matchedIdx_full (str1Matches st) (length a) 0) in Ht by lia.
  rewrite (matchedIdx_full (str2Matches st) (length b) 0) in Ht by lia.
  apply mismatches_zero in Ht; [|rewrite !length_map, !length_seq; lia].
  apply list_eq. intros i.
  destruct (decide (i < length a)) as [Hi|Hi].
  - assert (Hn : map (fun i => a !! i) (seq 0 (length a)) !! i
                 = map (fun i => b !! i) (seq 0 (length b)) !! i) by (rewrite Ht; reflexivity).
    rewrite !list_lookup_fmap in Hn.
    rewrite (lookup_seq_lt 0 (length a) i Hi) in Hn.
    rewrite (lookup_seq_lt 0 (length b) i) in Hn by lia.
    simpl in Hn. injection Hn as Hn. exact Hn.
  - rewrite !(proj2 (lookup_ge_None _ _)) by lia. reflexivity.
Qed.

(** ** The range of the scores *)

Lemma Qnat_le n k : n <= k -> (Qnat n <= Qnat k)%Q.
Proof. intros H. unfold Qnat. rewrite <- Zle_Qle. lia. Qed.

Lemma Qnat_pos k : 0 < k -> (0 < Qnat k)%Q.
Proof. intros H. unfold Qnat. change 0%Q with (inject_Z 0). rewrite <- Zlt_Qlt. lia. Qed.

Lemma Qnat_nonneg k : (0 <= Qnat k)%Q.
Proof. unfold Qnat. change 0%Q with (inject_Z 0). rewrite <- Zle_Qle. lia. Qed.

Lemma Qnat_eq n k : (Qnat n == Qnat k)%Q -> n = k.
Proof. unfold Qnat. intros H. apply Nat2Z.inj, inject_Z_injective. exact H. Qed.

Lemma Qdiv_unit (x y : Q) :
  (0 <= x)%Q -> (x <= y)%Q -> (0 < y)%Q ->
  (0 <= x / y <= 1)%Q /\ ((x / y == 1)%Q -> (x == y)%Q).
Proof.
  intros Hx Hxy Hy. split; [split|].
  - apply Qle_shift_div_l; [assumption | lra].
  - apply Qle_shift_div_r; [assumption | lra].
  - intros H. rewrite <- (Qmult_div_r x y) by lra. rewrite H. lra.
Qed.

(** The Jaro score of [m > 0] matches with [t] transposed pairs: positive, at
    most 1, and 1 only when every character is matched and none transposed. *)
Lemma jaroFormula_range m t la lb :
  0 < m -> m <= la -> m <= lb -> t <= m ->
  (0 < jaroFormula m t la lb <= 1)%Q /\
  ((jaroFormula m t la lb == 1)%Q -> m = la /\ m = lb /\ t = 0).
Proof.
  intros Hm Hla Hlb Ht. unfold jaroFormula. cbv zeta.
  change (Qnat t / 2)%Q with (Qnat t * (1 # 2))%Q.
  pose proof (Qnat_pos m Hm) as Pm.
  pose proof (Qnat_nonneg t) as Pt.
  pose proof (Qnat_le t m Ht) as Ptm.
  destruct (Qdiv_unit (Qnat m) (Qnat la)) as [[X0 X1] Xe];
    [lra | apply Qnat_le; assumption | apply Qnat_pos; lia |].
  destruct (Qdiv_unit (Qnat m) (Qnat lb)) as [[Y0 Y1] Ye];
    [lra | apply Qnat_le; assumption | apply Qnat_pos; lia |].
  destruct (Qdiv_unit (Qnat m - Qnat t * (1 # 2)) (Qnat m)) as [[Z0 Z1] Ze];
    [lra | lra | lra |].
  assert (Zpos : (0 < (Qnat m - Qnat t * (1 # 2)) / Qnat m)%Q)
    by (apply Qlt_shift_div_l; [assumption | lra]).
  set (x := (Qnat m / Qnat la)%Q) in *.
  set (y := (Qnat m / Qnat lb)%Q) in *.
  set (z := ((Qnat m - Qnat t * (1 # 2)) / Qnat m)%Q) in *.
  unfold Qdiv. change (/ 3)%Q with (1 # 3)%Q.
  split; [lra|]. intros H.
  assert (Hx : (x == 1)%Q) by lra.
  assert (Hy : (y == 1)%Q) by lra.
  assert (Hz : (z == 1)%Q) by lra.
  apply Xe, Qnat_eq in Hx. apply Ye, Qnat_eq in Hy. apply Ze in Hz.
  assert (Ht0 : (Qnat t == 0)%Q) by lra.
  change 0%Q with (Qnat 0) in Ht0. apply Qnat_eq in Ht0. auto.
Qed.

Lemma count_fold (p : nat -> bool) (l : list nat) : forall n,
  fold_left (fun n i => if p i then S n else n) l n = n + length (List.filter p l).
Proof.
  induction l as [|i l IH]; intros n; simpl; [lia|].
  rewrite IH. destruct (p i); simpl; lia.
Qed.

Lemma prefixLength_le a b : prefixLength a b <= 4.
Proof.
  unfold prefixLength. rewrite count_fold. simpl.
  etransitivity; [apply filter_length_le|]. rewrite length_seq. lia.
Qed.

(** X1: both similarity functions return a number between 0 and 1, and the
    boost of [jaroWinklerSimilarity] never lowers the Jaro score. *)
Theorem similarity_in_unit_interval (a b : jsstring) :
  exists q q',
    Jaro.jaroSimilarity a b = Some q /\
    JaroWinkler.jaroWinklerSimilarity a b = Some q' /\
    (0 <= q <= 1)%Q /\ (0 <= q' <= 1)%Q /\ (q <= q')%Q.
Proof.
  unfold Jaro.jaroSimilarity, JaroWinkler.jaroWinklerSimilarity,
    Jaro.jaroSimilarityAt, JaroWinkler.jaroWinklerSimilarityAt.
  destruct (strEq a b); [exists 1%Q, 1%Q; repeat split; lra|].
  destruct (jaroCore_data (maxDistOf (length a) (length b)) a b) as (E & Ha & Hb & Ht).
  rewrite E.
  destruct (matches (matchLoop a b (maxDistOf (length a) (length b))) =? 0) eqn:E0.
  - exists 0%Q, 0%Q. repeat split; lra.
  - apply Nat.eqb_neq in E0.
    assert (Hpos : 0 < matches (matchLoop a b (maxDistOf (length a) (length b)))) by lia.
    destruct (jaroFormula_range _ _ _ _ Hpos Ha Hb Ht) as [[J0 J1] _].
    pose proof (Qnat_nonneg (prefixLength a b)) as P0.
    pose proof (Qnat_le _ _ (prefixLength_le a b)) as P4.
    change (Qnat 4) with 4%Q in P4.
    eexists _, _. split; [reflexivity|]. split; [reflexivity|].
    repeat split; nra.
Qed.

(** X2: [jaroSimilarity] returns 1 exactly on equal strings. *)
Theorem jaroSimilarity_one_iff_equal (a b : jsstring) :
  scoreIs (Jaro.jaroSimilarity a b) 1 <-> a = b.
Proof.
  unfold scoreIs, Jaro.jaroSimilarity, Jaro.jaroSimilarityAt, strEq.
  split.
  - intros (x & Hx & Hq).
    destruct (decide (a = b)) as [|Hne]; [assumption|]. exfalso.
    rewrite bool_decide_eq_false_2 in Hx by assumption.
    destruct (jaroCore_data (maxDistOf (length a) (length b)) a b) as (E & Ha & Hb & Ht).
    rewrite E in Hx.
    destruct (matches (matchLoop a b (maxDistOf (length a) (length b))) =? 0) eqn:E0.
    + injection Hx as <-. discriminate.
    + apply Nat.eqb_neq in E0. injection Hx as <-.
      assert (Hpos : 0 < matches (matchLoop a b (maxDistOf (length a) (length b)))) by lia.
      destruct (jaroFormula_range _ _ _ _ Hpos Ha Hb Ht) as [_ Hone].
      destruct (Hone Hq) as (H1 & H2 & H3).
      apply Hne. eapply all_matched_in_order; eassumption.
  - intros ->. rewrite bool_decide_eq_true_2 by reflexivity.
    exists 1%Q. split; reflexivity.
Qed.

(** ** Matches and compatible pairs *)

Lemma matchedIdx_In (f : list bool) i n r :
  In i (matchedIdx f n r) <-> n <= i < n + r /\ truthy (f !! i) = true.
Proof. unfold matchedIdx. rewrite filter_In, in_seq. tauto. Qed.

(** The first loop finds no match exactly when no character of the first
    string has an equal character of the second at most [d] places away. *)
Lemma matches_zero_iff d a b :
  matches (matchLoop a b d) = 0 <-> forall i j, ~ compat a b d i j.
Proof.
  destruct (matchLoop_inv a b d) as [M I].
  pose proof (inv_count1 _ _ _ _ _ _ I) as C1.
  assert (HM : matches (matchLoop a b d) = 0 <-> forall i j, ~ M i j).
  { rewrite C1. split.
    - intros H0 i j Hm.
      assert (Hin : In i (matchedIdx (str1Matches (matchLoop a b d)) 0 (length a))).
      { apply matchedIdx_In. split.
        - apply (inv_dom _ _ _ _ _ _ I) in Hm as [_ [Hi _]]. lia.
        - apply (inv_flag1 _ _ _ _ _ _ I). eauto. }
      destruct (matchedIdx (str1Matches (matchLoop a b d)) 0 (length a));
        [destruct Hin | discriminate].
    - intros Hno.
      destruct (matchedIdx (str1Matches (matchLoop a b d)) 0 (length a))
        as [|i l] eqn:E; [reflexivity|]. exfalso.
      assert (Hin : In i (matchedIdx (str1Matches (matchLoop a b d)) 0 (length a)))
        by (rewrite E; left; reflexivity).
      apply matchedIdx_In in Hin as [_ Ht].
      apply (inv_flag1 _ _ _ _ _ _ I) in Ht as [j Hm]. exact (Hno i j Hm). }
  rewrite HM. split.
  - intros Hno i j Hc.
    destruct (inv_taken _ _ _ _ _ _ I i j) as (i' & _ & Hm).
    + apply Hc.
    + intros [j0 Hm]. exact (Hno i j0 Hm).
    + assumption.
    + exact (Hno i' j Hm).
  - intros Hno i j Hm. apply (Hno i j). apply (inv_dom _ _ _ _ _ _ I) in Hm. tauto.
Qed.

(** The three cases of [jaroSimilarity]. *)
Lemma jaroSimilarity_cases (a b : jsstring) :
  (a = b /\ Jaro.jaroSimilarity a b = Some 1%Q) \/
  (a <> b /\ matches (matchLoop a b (maxDistOf (length a) (length b))) = 0 /\
   Jaro.jaroSimilarity a b = Some 0%Q) \/
  (a <> b /\ matches (matchLoop a b (maxDistOf (length a) (length b))) <> 0 /\
   exists q, Jaro.jaroSimilarity a b = Some q /\ (0 < q)%Q /\ (q < 1)%Q).
Proof.
  unfold Jaro.jaroSimilarity, Jaro.jaroSimilarityAt, strEq.
  destruct (decide (a = b)) as [->|Hne].
  - left. rewrite bool_decide_eq_true_2 by reflexivity. tauto.
  - right. rewrite bool_decide_eq_false_2 by assumption.
    destruct (jaroCore_data (maxDistOf (length a) (length b)) a b) as (E & Ha & Hb & Ht).
    rewrite E.
    destruct (matches (matchLoop a b (maxDistOf (length a) (length b))) =? 0) eqn:E0.
    + left. apply Nat.eqb_eq in E0. tauto.
    + right. apply Nat.eqb_neq in E0. split; [assumption|]. split; [assumption|].
      assert (Hpos : 0 < matches (matchLoop a b (maxDistOf (length a) (length b)))) by lia.
      destruct (jaroFormula_range _ _ _ _ Hpos Ha Hb Ht) as [[J0 J1] Hone].
      eexists. split; [reflexivity|]. split; [assumption|].
      apply Qle_lteq in J1 as [J1|J1]; [assumption|]. exfalso.
      destruct (Hone J1) as (H1 & H2 & H3).
      apply Hne. eapply all_matched_in_order; eassumption.
Qed.

(** [jaroWinklerSimilarity] in terms of [jaroSimilarity]. *)
Lemma jaroWinkler_of_jaro (a b : jsstring) (q : Q) :
  a <> b -> matches (matchLoop a b (maxDistOf (length a) (length b))) <> 0 ->
  Jaro.jaroSimilarity a b = Some q ->
  JaroWinkler.jaroWinklerSimilarity a b
    = Some (q + Qnat (prefixLength a b) * (1 # 4) * (1 - q))%Q.
Proof.
  unfold Jaro.jaroSimilarity, JaroWinkler.jaroWinklerSimilarity,
    Jaro.jaroSimilarityAt, JaroWinkler.jaroWinklerSimilarityAt, strEq.
  intros Hne Hm. rewrite bool_decide_eq_false_2 by assumption.
  destruct (jaroCore_data (maxDistOf (length a) (length b)) a b) as (E & _).
  rewrite E. apply Nat.eqb_neq in Hm. rewrite Hm.
  intros H. injection H as <-. reflexivity.
Qed.

Lemma jaroWinkler_no_match (a b : jsstring) :
  a <> b -> matches (matchLoop a b (maxDistOf (length a) (length b))) = 0 ->
  JaroWinkler.jaroWinklerSimilarity a b = Some 0%Q.
Proof.
  unfold JaroWinkler.jaroWinklerSimilarity, JaroWinkler.jaroWinklerSimilarityAt, strEq.
  intros Hne Hm. rewrite bool_decide_eq_false_2 by assumption.
  destruct (jaroCore_data (maxDistOf (length a) (length b)) a b) as (E & _).
  rewrite E. apply Nat.eqb_eq in Hm. rewrite Hm. reflexivity.
Qed.

(** X3: the score is 0 exactly when the strings differ and no character of
    the first has an equal character of the second within [maxDist] places;
    both variants. *)
Theorem similarity_zero_iff_no_match (a b : jsstring) :
  (scoreIs (Jaro.jaroSimilarity a b) 0 <->
   a <> b /\ forall i j, ~ compat a b (maxDistOf (length a) (length b)) i j) /\
  (scoreIs (JaroWinkler.jaroWinklerSimilarity a b) 0 <->
   a <> b /\ forall i j, ~ compat a b (maxDistOf (length a) (length b)) i j).
Proof.
  rewrite <- matches_zero_iff. unfold scoreIs.
  destruct (jaroSimilarity_cases a b) as [[-> H]|[(Hne & Hm & H)|(Hne & Hm & q & H & Hq0 & Hq1)]].
  - assert (HW : JaroWinkler.jaroWinklerSimilarity b b = Some 1%Q).
    { unfold JaroWinkler.jaroWinklerSimilarity, JaroWinkler.jaroWinklerSimilarityAt, strEq.
      rewrite bool_decide_eq_true_2 by reflexivity. reflexivity. }
    rewrite H, HW. split; (split; [intros (x & Hx & Hq); injection Hx as <-; discriminate
                                  | intros [Hne _]; congruence]).
  - rewrite H, (jaroWinkler_no_match a b Hne Hm).
    split; (split; [tauto | intros _; exists 0%Q; split; reflexivity]).
  - rewrite H, (jaroWinkler_of_jaro a b q Hne Hm H).
    pose proof (Qnat_nonneg (prefixLength a b)) as P0.
    split; (split; [intros (x & Hx & Hq); injection Hx as <-; exfalso; nra | tauto]).
Qed.

(** X4: the score of [a] against [b] equals the score of [b] against [a] for
    strings of any lengths; both variants. *)
Theorem similarity_symmetric (a b : jsstring) :
  (exists q q', Jaro.jaroSimilarity a b = Some q /\
                Jaro.jaroSimilarity b a = Some q' /\ (q == q')%Q) /\
  (exists q q', JaroWinkler.jaroWinklerSimilarity a b = Some q /\
                JaroWinkler.jaroWinklerSimilarity b a = Some q' /\ (q == q')%Q).
Proof.
  unfold JaroWinkler.jaroWinklerSimilarity, Jaro.jaroSimilarity,
    JaroWinkler.jaroWinklerSimilarityAt, Jaro.jaroSimilarityAt.
  rewrite (strEq_sym b a), (prefixLength_sym b a).
  rewrite (maxDistOf_sym (length b) (length a)).
  destruct (strEq a b).
  { split; exists 1%Q, 1%Q; repeat split; reflexivity. }
  destruct (jaroCore_flip (maxDistOf (length a) (length b)) a b)
    as [[E1 E2]|(m & t & Hm & E1 & E2)]; rewrite E1, E2.
  - split; exists 0%Q, 0%Q; repeat split; reflexivity.
  - pose proof (jaroFormula_swap m t (length a) (length b)) as Hs.
    split; eexists _, _; (split; [reflexivity|]); (split; [reflexivity|]).
    + assumption.
    + rewrite Hs. reflexivity.
Qed.

(** ** The boost on a common prefix of four characters *)

Lemma common_prefix_lookup (a b : jsstring) n i :
  take n a = take n b -> i < n -> a !! i = b !! i.
Proof.
  intros H Hi.
  pose proof (lookup_take_lt a n i Hi) as Ha.
  pose proof (lookup_take_lt b n i Hi) as Hb.
  rewrite H in Ha. exact (eq_trans (eq_sym Ha) Hb).
Qed.

Lemma prefixLength_of_common_prefix (a b : jsstring) :
  4 <= length a -> 4 <= length b -> take 4 a = take 4 b ->
  prefixLength a b = 4.
Proof.
  intros Ha Hb Htake.
  assert (Hi : forall i, i < 4 -> charEq (a !! i) (b !! i) = true).
  { intros i Hlt. apply charEq_true. eapply common_prefix_lookup; eassumption. }
  unfold prefixLength. rewrite count_fold.
  replace (Nat.min (Nat.min (length a) (length b)) 4) with 4 by lia.
  simpl. rewrite !Hi by lia. reflexivity.
Qed.

(** X5: two unequal strings of at least four characters that agree on their
    first four characters have the score 1 by [jaroWinklerSimilarity], while
    their score by [jaroSimilarity] is below 1. *)
Theorem jaroWinkler_saturates_on_common_prefix (a b : jsstring) :
  4 <= length a -> 4 <= length b -> take 4 a = take 4 b -> a <> b ->
  scoreIs (JaroWinkler.jaroWinklerSimilarity a b) 1 /\
  exists q, Jaro.jaroSimilarity a b = Some q /\ (0 < q)%Q /\ (q < 1)%Q.
Proof.
  intros Ha Hb Htake Hne.
  assert (Hc : compat a b (maxDistOf (length a) (length b)) 0 0).
  { unfold compat. repeat split; try lia.
    - apply (common_prefix_lookup a b 4 0 Htake). lia.
    - unfold maxDistOf.
      assert (2 <= Z.of_nat (Nat.max (length a) (length b)) / 2)%Z
        by (apply Z.div_le_lower_bound; lia).
      lia.
    - unfold maxDistOf.
      assert (2 <= Z.of_nat (Nat.max (length a) (length b)) / 2)%Z
        by (apply Z.div_le_lower_bound; lia).
      lia. }
  destruct (jaroSimilarity_cases a b) as [[-> _]|[(_ & Hm & _)|(_ & Hm & q & H & Hq0 & Hq1)]].
  - congruence.
  - exfalso. apply (proj1 (matches_zero_iff _ a b) Hm 0 0 Hc).
  - split; [|eauto].
    rewrite (jaroWinkler_of_jaro a b q Hne Hm H).
    rewrite (prefixLength_of_common_prefix a b Ha Hb Htake).
    eexists. split; [reflexivity|]. change (Qnat 4) with 4%Q. ring.
Qed.

Lemma jaroWinkler_saturates_on_common_prefix_witness :
  4 <= length (js "abcdX") /\ 4 <= length (js "abcdY") /\
  take 4 (js "abcdX") = take 4 (js "abcdY") /\ js "abcdX" <> js "abcdY" /\
  scoreIs (JaroWinkler.jaroWinklerSimilarity (js "abcdX") (js "abcdY")) 1 /\
  exists q, Jaro.jaroSimilarity (js "abcdX") (js "abcdY") = Some q /\
            (0 < q)%Q /\ (q < 1)%Q.
Proof.
  split; [simpl; lia|]. split; [simpl; lia|]. split; [reflexivity|].
  split; [discriminate|].
  apply (jaroWinkler_saturates_on_common_prefix (js "abcdX") (js "abcdY"));
    [simpl; lia | simpl; lia | reflexivity | discriminate].
Defined.

(** ** Windows *)

Lemma toWindows_lookup_Some (h : jsstring) size i :
  size <= length h -> i <= length h - size ->
  toWindows h size !! i = Some (slice h i (i + size)).
Proof.
  intros H Hi. unfold toWindows. rewrite bool_decide_eq_false_2 by lia.
  rewrite list_lookup_fmap, (lookup_seq_lt 0 (S (length h - size)) i) by lia.
  reflexivity.
Qed.

Lemma slice_middle (pre w post : jsstring) :
  slice (pre ++ w ++ post) (length pre) (length pre + length w) = w.
Proof.
  unfold slice. rewrite drop_app_length.
  replace (length pre + length w - length pre) with (length w) by lia.
  apply take_app_length.
Qed.

(** X6: when [size] is at most the length of the input, [toWindows] returns
    [length input - size + 1] windows, and the window at index [i] is the
    [size] characters of the input from [i] on; when [size] is larger, the
    input is the only window. *)
Theorem toWindows_windows (input : jsstring) (size : nat) :
  (size <= length input ->
   length (toWindows input size) = length input - size + 1 /\
   forall i, i <= length input - size ->
     exists w, toWindows input size !! i = Some w /\
               length w = size /\
               input = take i input ++ w ++ drop (i + size) input) /\
  (length input < size -> toWindows input size = [input]).
Proof.
  split; [|apply toWindows_short].
  intros H. split; [apply toWindows_count; assumption|].
  intros i Hi. exists (slice input i (i + size)).
  split; [apply toWindows_lookup_Some; assumption|].
  unfold slice. replace (i + size - i) with size by lia.
  split; [rewrite length_take, length_drop; lia|].
  rewrite <- (take_drop i input) at 1. f_equal.
  rewrite <- (take_drop size (drop i input)) at 1. f_equal.
  rewrite drop_drop. reflexivity.
Qed.

(** X7: when the needle occurs in the haystack, after the line breaks of the
    haystack are replaced by spaces, the search by [jaroSimilarity] returns
    the needle. *)
Theorem fuzzySearch_finds_occurrence (input toFind pre post : jsstring) :
  collapseLineBreaks input = pre ++ toFind ++ post ->
  Jaro.fuzzySearch input toFind = Some toFind.
Proof.
  intros Hocc.
  destruct (fuzzySearchWith_spec Jaro.jaroSimilarity jaroSimilarity_total toFind input)
    as (w & Hw & (k & dk & Hk & Hdk & Hbest) & _).
  unfold Jaro.fuzzySearch. rewrite Hw. f_equal.
  assert (Hlen : length (collapseLineBreaks input)
                 = length pre + length toFind + length post)
    by (rewrite Hocc, !length_app; lia).
  assert (Hwin : toWindows (collapseLineBreaks input) (length toFind) !! length pre
                 = Some toFind).
  { rewrite toWindows_lookup_Some by lia. rewrite Hocc, slice_middle. reflexivity. }
  destruct (jaroSimilarity_cases toFind toFind) as [[_ H1]|[[Hne _]|[Hne _]]];
    [|congruence|congruence].
  destruct (Hbest _ _ _ Hwin H1) as [Hle _].
  destruct (jaroSimilarity_cases w toFind)
    as [[-> _]|[(_ & _ & H)|(_ & _ & q & H & _ & Hq1)]].
  - reflexivity.
  - rewrite H in Hdk. injection Hdk as <-. exfalso. lra.
  - rewrite H in Hdk. injection Hdk as <-. exfalso. lra.
Qed.

Lemma fuzzySearch_finds_occurrence_witness :
  collapseLineBreaks (js "The quick brown" ++ [LF] ++ js "fox jumped")
    = js "The quick " ++ js "brown fox" ++ js " jumped" /\
  Jaro.fuzzySearch (js "The quick brown" ++ [LF] ++ js "fox jumped") (js "brown fox")
    = Some (js "brown fox").
Proof.
  split; [reflexivity|].
  apply (fuzzySearch_finds_occurrence _ _ (js "The quick ") (js " jumped")).
  reflexivity.
Defined.

(** * Further properties of [runner.ts] *)

(** ** The tally of a suite *)

Lemma recordAll_cons x xs t0 :
  recordAll (x :: xs) t0 = recordAll xs (recordOutcome t0 (fst x) (snd x)).
Proof. reflexivity. Qed.

Lemma namesWith_cons ok x xs :
  namesWith ok (x :: xs) =
  if Bool.eqb (snd x) ok then name (fst x) :: namesWith ok xs else namesWith ok xs.
Proof. unfold namesWith. simpl. destruct (Bool.eqb (snd x) ok); reflexivity. Qed.

Lemma recordAll_lists xs : forall t0,
  passing (recordAll xs t0) = passing t0 ++ namesWith true xs /\
  failing (recordAll xs t0) = failing t0 ++ namesWith false xs /\
  passed (recordAll xs t0) = passed t0 + length (namesWith true xs) /\
  numtests (recordAll xs t0) = numtests t0 + length xs.
Proof.
  induction xs as [|[test ok] xs IH]; intros t0.
  - unfold namesWith. simpl. rewrite !app_nil_r. repeat split; lia.
  - rewrite recordAll_cons, !namesWith_cons. cbn [fst snd].
    destruct (IH (recordOutcome t0 test ok)) as (H1 & H2 & H3 & H4).
    rewrite H1, H2, H3, H4. cbn [fst snd].
    destruct ok; simpl; rewrite <- ?app_assoc; simpl; repeat split; lia.
Qed.

Lemma recordOutcome_points t test ok :
  availablePoints (recordOutcome t test ok)
    = (availablePoints t + pointsOffered test)%Z /\
  earnedPoints (recordOutcome t test ok)
    = (earnedPoints t + if ok then pointsWorth test else 0)%Z /\
  hasPoints (recordOutcome t test ok) = hasPoints t || numTruthy (points test).
Proof.
  unfold recordOutcome, pointsOffered, pointsWorth.
  destruct ok, (numTruthy (points test)), (boolTruthy (extra test)); simpl;
    repeat split; lia.
Qed.

Lemma sumZ_cons z l : sumZ (z :: l) = (z + sumZ l)%Z.
Proof. reflexivity. Qed.

Lemma recordAll_points xs : forall t0,
  availablePoints (recordAll xs t0)
    = (availablePoints t0 + sumZ (map (fun x => pointsOffered (fst x)) xs))%Z /\
  earnedPoints (recordAll xs t0)
    = (earnedPoints t0
       + sumZ (map (fun x => pointsWorth (fst x)) (List.filter snd xs)))%Z /\
  hasPoints (recordAll xs t0)
    = hasPoints t0 || existsb (fun x => numTruthy (points (fst x))) xs.
Proof.
  induction xs as [|[test ok] xs IH]; intros t0.
  - simpl. rewrite orb_false_r. repeat split; lia.
  - rewrite recordAll_cons. cbn [fst snd].
    destruct (IH (recordOutcome t0 test ok)) as (H1 & H2 & H3).
    destruct (recordOutcome_points t0 test ok) as (A1 & A2 & A3).
    rewrite H1, H2, H3, A1, A2, A3.
    cbn [map existsb List.filter fst snd]. rewrite sumZ_cons, orb_assoc.
    split; [lia|]. split; [|reflexivity].
    destruct ok; cbn [map fst]; rewrite ?sumZ_cons; lia.
Qed.

Lemma recordOutcome_failed t test ok :
  failed (recordOutcome t test ok) = failed t || requiredFailure (test, ok).
Proof.
  unfold recordOutcome, requiredFailure. cbn [fst snd].
  destruct ok, (boolTruthy (extra test)), (failed t); reflexivity.
Qed.

Lemma recordAll_failed xs : forall t0,
  failed (recordAll xs t0) = failed t0 || existsb requiredFailure xs.
Proof.
  induction xs as [|[test ok] xs IH]; intros t0.
  - simpl. rewrite orb_false_r. reflexivity.
  - rewrite recordAll_cons. cbn [fst snd].
    rewrite IH, recordOutcome_failed. cbn [existsb]. rewrite orb_assoc. reflexivity.
Qed.

Section SuiteProps.

Variable World : Type.
Variable spawn : World -> jsstring -> option jsstring -> Q -> jsstring * ChildEvent * World.
Variable hrtime : World -> Z * World.
Variable regexMatch : jsstring -> jsstring -> option bool.

Lemma outcomes_length tests : forall w,
  length (outcomes World spawn hrtime regexMatch w tests) = length tests.
Proof.
  induction tests as [|test rest IH]; intros w; [reflexivity|].
  simpl. destruct (run World spawn hrtime regexMatch w test) as [r w'].
  simpl. rewrite IH. reflexivity.
Qed.

Lemma fold_runOne tests : forall t0 w,
  fst (fold_left (runOne World spawn hrtime regexMatch) tests (t0, w))
  = recordAll (combine tests (outcomes World spawn hrtime regexMatch w tests)) t0.
Proof.
  induction tests as [|test rest IH]; intros t0 w; [reflexivity|].
  rewrite fold_left_step. unfold runOne at 2. simpl outcomes.
  destruct (run World spawn hrtime regexMatch w test) as [r w'].
  rewrite IH. reflexivity.
Qed.

Lemma runAll_tally w tests :
  tally (fst (runAll World spawn hrtime regexMatch w tests))
  = recordAll (combine tests (outcomes World spawn hrtime regexMatch w tests)) tallyInit.
Proof.
  unfold runAll. rewrite <- fold_runOne.
  destruct (fold_left (runOne World spawn hrtime regexMatch) tests (tallyInit, w)).
  reflexivity.
Qed.

Lemma runAll_report w tests :
  fst (runAll World spawn hrtime regexMatch w tests)
  = report (tally (fst (runAll World spawn hrtime regexMatch w tests))).
Proof.
  unfold runAll.
  destruct (fold_left (runOne World spawn hrtime regexMatch) tests (tallyInit, w)).
  reflexivity.
Qed.

End SuiteProps.

Lemma namesWith_lengths xs :
  length xs = length (namesWith true xs) + length (namesWith false xs).
Proof.
  induction xs as [|[test ok] xs IH]; [reflexivity|].
  rewrite !namesWith_cons. cbn [snd]. destruct ok; simpl; lia.
Qed.

Lemma map_fst_combine {A B : Type} (l : list A) : forall (l' : list B),
  length l = length l' -> map fst (combine l l') = l.
Proof.
  induction l as [|x l IH]; intros [|y l'] H; simpl in *; try lia; [reflexivity|].
  f_equal. apply IH. lia.
Qed.

Lemma existsb_map {A B : Type} (f : B -> bool) (g : A -> B) (l : list A) :
  existsb (fun x => f (g x)) l = existsb f (map g l).
Proof. induction l as [|x l IH]; simpl; [reflexivity | rewrite IH; reflexivity]. Qed.

(** X8: the lists [passing] and [failing] of [runAll] hold the names of the
    tests that passed and of those that failed, each in the order of the
    suite; [passed] is the number of the former, [numtests] the number of
    tests, and every test is in one of the two lists. *)
Theorem runAll_lists_and_counts
    (World : Type)
    (spawn : World -> jsstring -> option jsstring -> Q -> jsstring * ChildEvent * World)
    (hrtime : World -> Z * World)
    (regexMatch : jsstring -> jsstring -> option bool)
    (w : World) (tests : list Test) :
  let xs := combine tests (outcomes World spawn hrtime regexMatch w tests) in
  let T := tally (fst (runAll World spawn hrtime regexMatch w tests)) in
  passing T = namesWith true xs /\
  failing T = namesWith false xs /\
  passed T = length (passing T) /\
  numtests T = length tests /\
  numtests T = passed T + length (failing T).
Proof.
  intros xs T. unfold T. rewrite runAll_tally. fold xs.
  destruct (recordAll_lists xs tallyInit) as (H1 & H2 & H3 & H4).
  simpl in H1, H2, H3, H4.
  assert (Hlen : length xs = length tests).
  { unfold xs. rewrite length_combine, outcomes_length. lia. }
  rewrite H1, H2, H3, H4. repeat split; try assumption.
  apply namesWith_lengths.
Qed.

(** X9: [availablePoints] is the sum of the points of the tests that are not
    extra credit, whatever the outcomes; the earned points are the sum of
    the points of the tests that passed; the score is reported in points
    exactly when some test declares points other than 0, and in passed
    tests otherwise; extra credit is reported exactly when more points are
    earned than available. *)
Theorem runAll_points
    (World : Type)
    (spawn : World -> jsstring -> option jsstring -> Q -> jsstring * ChildEvent * World)
    (hrtime : World -> Z * World)
    (regexMatch : jsstring -> jsstring -> option bool)
    (w : World) (tests : list Test) :
  let xs := combine tests (outcomes World spawn hrtime regexMatch w tests) in
  let R := fst (runAll World spawn hrtime regexMatch w tests) in
  availablePoints (tally R) = sumZ (map pointsOffered tests) /\
  earnedPoints (tally R)
    = sumZ (map (fun x => pointsWorth (fst x)) (List.filter snd xs)) /\
  hasPoints (tally R) = existsb (fun test => numTruthy (points test)) tests /\
  pointsOutput R
    = (if existsb (fun test => numTruthy (points test)) tests
       then (earnedPoints (tally R), availablePoints (tally R))
       else (Z.of_nat (passed (tally R)), Z.of_nat (numtests (tally R)))) /\
  extraCreditPoints R
    = (if (availablePoints (tally R) <? earnedPoints (tally R))%Z
       then Some (earnedPoints (tally R) - availablePoints (tally R))%Z
       else None).
Proof.
  intros xs R.
  assert (Hfst : map fst xs = tests).
  { unfold xs. apply map_fst_combine. rewrite outcomes_length. reflexivity. }
  assert (HT : tally R = recordAll xs tallyInit) by apply runAll_tally.
  assert (HR : R = report (tally R)) by apply runAll_report.
  destruct (recordAll_points xs tallyInit) as (H1 & H2 & H3).
  simpl in H1, H2, H3. rewrite <- HT in H1, H2, H3.
  assert (Hav : availablePoints (tally R) = sumZ (map pointsOffered tests)).
  { rewrite H1, <- Hfst, map_map. reflexivity. }
  assert (Hhas : hasPoints (tally R)
                 = existsb (fun test => numTruthy (points test)) tests).
  { rewrite H3, <- Hfst.
    apply (existsb_map (fun test => numTruthy (points test)) fst xs). }
  split; [assumption|]. split; [rewrite H2; apply Z.add_0_l|]. split; [assumption|].
  rewrite <- Hhas.
  replace (pointsOutput R) with (pointsOutput (report (tally R)))
    by (rewrite <- HR; reflexivity).
  replace (extraCreditPoints R) with (extraCreditPoints (report (tally R)))
    by (rewrite <- HR; reflexivity).
  unfold report. cbn [pointsOutput extraCreditPoints].
  split; [reflexivity|].
  destruct (availablePoints (tally R) <? earnedPoints (tally R))%Z; [|reflexivity].
  f_equal. lia.
Qed.

Lemma earned_le_offered xs :
  (forall x, In x xs ->
     boolTruthy (extra (fst x)) = false /\ (0 <= pointsWorth (fst x))%Z) ->
  (sumZ (map (fun x => pointsWorth (fst x)) (List.filter snd xs))
   <= sumZ (map (fun x => pointsOffered (fst x)) xs))%Z.
Proof.
  induction xs as [|[test ok] xs IH]; intros H; [simpl; lia|].
  assert (IH' := IH (fun x Hx => H x (or_intror Hx))).
  destruct (H (test, ok) (or_introl eq_refl)) as [Hx Hp]. cbn [fst] in Hx, Hp.
  assert (Ho : pointsOffered test = pointsWorth test).
  { unfold pointsOffered, pointsWorth. rewrite Hx, andb_true_r. reflexivity. }
  cbn [List.filter snd map fst]. rewrite sumZ_cons, Ho.
  destruct ok; cbn [map fst]; rewrite ?sumZ_cons; lia.
Qed.

(** X10: in a suite without extra-credit tests and without negative points,
    the earned points never exceed the available points, and no extra credit
    is reported. *)
Theorem runAll_no_extra_credit_without_extra_tests
    (World : Type)
    (spawn : World -> jsstring -> option jsstring -> Q -> jsstring * ChildEvent * World)
    (hrtime : World -> Z * World)
    (regexMatch : jsstring -> jsstring -> option bool)
    (w : World) (tests : list Test) :
  (forall test, In test tests ->
     boolTruthy (extra test) = false /\ (0 <= pointsWorth test)%Z) ->
  let R := fst (runAll World spawn hrtime regexMatch w tests) in
  (earnedPoints (tally R) <= availablePoints (tally R))%Z /\
  extraCreditPoints R = None.
Proof.
  intros H R.
  set (xs := combine tests (outcomes World spawn hrtime regexMatch w tests)).
  assert (HT : tally R = recordAll xs tallyInit) by apply runAll_tally.
  assert (HR : R = report (tally R)) by apply runAll_report.
  destruct (recordAll_points xs tallyInit) as (H1 & H2 & _).
  simpl in H1, H2. rewrite <- HT in H1, H2.
  assert (Hle : (earnedPoints (tally R) <= availablePoints (tally R))%Z).
  { rewrite H1, H2. apply earned_le_offered.
    intros [test ok] Hin. apply in_combine_l in Hin. apply H. assumption. }
  split; [assumption|].
  replace (extraCreditPoints R) with (extraCreditPoints (report (tally R)))
    by (rewrite <- HR; reflexivity).
  unfold report. cbn [extraCreditPoints].
  destruct (availablePoints (tally R) <? earnedPoints (tally R))%Z eqn:E; [|reflexivity].
  apply Z.ltb_lt in E. lia.
Qed.

Lemma runAll_no_extra_credit_without_extra_tests_witness :
  (forall test, In test plainSuite ->
     boolTruthy (extra test) = false /\ (0 <= pointsWorth test)%Z) /\
  (earnedPoints (tally (fst (runAll Z demoSpawn demoHrtime demoRegex 0%Z plainSuite)))
   <= availablePoints (tally (fst (runAll Z demoSpawn demoHrtime demoRegex 0%Z plainSuite))))%Z /\
  extraCreditPoints (fst (runAll Z demoSpawn demoHrtime demoRegex 0%Z plainSuite)) = None.
Proof.
  assert (H : forall test, In test plainSuite ->
     boolTruthy (extra test) = false /\ (0 <= pointsWorth test)%Z).
  { intros test [<-|[<-|[<-|[]]]]; split; (reflexivity || (vm_compute; discriminate)). }
  split; [exact H|].
  exact (runAll_no_extra_credit_without_extra_tests
           Z demoSpawn demoHrtime demoRegex 0%Z plainSuite H).
Defined.

(** X11: the flag [failed] is set exactly when some test that is not extra
    credit has failed. *)
Theorem runAll_failed_iff
    (World : Type)
    (spawn : World -> jsstring -> option jsstring -> Q -> jsstring * ChildEvent * World)
    (hrtime : World -> Z * World)
    (regexMatch : jsstring -> jsstring -> option bool)
    (w : World) (tests : list Test) :
  failed (tally (fst (runAll World spawn hrtime regexMatch w tests))) = true <->
  exists test,
    In (test, false) (combine tests (outcomes World spawn hrtime regexMatch w tests)) /\
    boolTruthy (extra test) = false.
Proof.
  rewrite runAll_tally, recordAll_failed. simpl. rewrite existsb_exists.
  split.
  - intros ([test ok] & Hin & Hreq). unfold requiredFailure in Hreq. cbn [fst snd] in Hreq.
    apply andb_prop in Hreq as [Hok Hx].
    apply negb_true_iff in Hok, Hx. subst ok. eauto.
  - intros (test & Hin & Hx). exists (test, false). split; [assumption|].
    unfold requiredFailure. cbn [fst snd]. rewrite Hx. reflexivity.
Qed.

(** ** One test *)

(** X12: when [run] returns, the run command has exited with code 0 and what
    [run] returns is the output captured from it; the setup command, when
    the test has one, has exited with code 0 before; and the run command was
    given the budget less the milliseconds between the two readings of the
    clock. *)
Theorem run_returns_only_after_exit_0
    (World : Type)
    (spawn : World -> jsstring -> option jsstring -> Q -> jsstring * ChildEvent * World)
    (hrtime : World -> Z * World)
    (regexMatch : jsstring -> jsstring -> option bool)
    (w w' : World) (test : Test) (out : jsstring) :
  run World spawn hrtime regexMatch w test = (inr out, w') ->
  exists start w1 w2 stop w3 signal,
    hrtime w = (start, w1) /\
    (if strTruthy (setup test)
     then exists captured sig,
            spawn w1 (strOrEmpty (setup test)) None (effectiveTimeout test)
              = (captured, ExitEvent (Some 0%Z) sig, w2)
     else w2 = w1) /\
    hrtime w2 = (stop, w3) /\
    spawn w3 (run_ test) (if strTruthy (input test) then input test else None)
          (effectiveTimeout test - inject_Z (elapsedMs (hrtimeDiff start stop)))%Q
      = (out, ExitEvent (Some 0%Z) signal, w').
Proof.
  unfold run. destruct (hrtime w) as [start w1] eqn:Hs.
  destruct (runSetup World spawn w1 test (effectiveTimeout test)) as [[e|[]] w2] eqn:Hsetup;
    [discriminate|].
  destruct (hrtime w2) as [stop w3] eqn:Hstop.
  unfold runCommand.
  destruct (spawn w3 (run_ test) (if strTruthy (input test) then input test else None)
              (effectiveTimeout test - inject_Z (elapsedMs (hrtimeDiff start stop)))%Q)
    as [[captured ev] w4] eqn:Hrun.
  intros H.
  assert (Hev : exists signal, ev = ExitEvent (Some 0%Z) signal).
  { destruct ev as [[[| |]|] signal| |]; simpl in H; try discriminate. eauto. }
  destruct Hev as [signal ->]. simpl in H.
  assert (Hout : captured = out /\ w4 = w').
  { destruct (negb (strTruthy (output test)) && negb (strTruthy (input test))).
    - injection H as <- <-. tauto.
    - unfold compareOutput in H.
      destruct (comparison test) as [[| |]|];
        repeat match type of H with
               | context [if ?c then _ else _] => destruct c
               | context [match ?c with _ => _ end] => destruct c
               end; try discriminate; injection H as <- <-; tauto. }
  destruct Hout as [<- <-].
  exists start, w1, w2, stop, w3, signal.
  split; [first [assumption | reflexivity]|].
  split; [|split; [first [assumption | reflexivity] | assumption]].
  unfold runSetup in Hsetup.
  destruct (strTruthy (setup test)); simpl in Hsetup.
  - destruct (spawn w1 (strOrEmpty (setup test)) None (effectiveTimeout test))
      as [[cap ev] w2'] eqn:Hsp.
    injection Hsetup as Hw <-.
    destruct ev as [[[| |]|] sig| |]; simpl in Hw; try discriminate. eauto.
  - injection Hsetup as <-. reflexivity.
Qed.

Lemma run_returns_only_after_exit_0_witness :
  run Z demoSpawn demoHrtime demoRegex 0%Z (helloTest None)
    = (inr (js "Hello world" ++ [LF]), 3000002000%Z) /\
  exists start w1 w2 stop w3 signal,
    demoHrtime 0%Z = (start, w1) /\
    (if strTruthy (setup (helloTest None))
     then exists captured sig,
            demoSpawn w1 (strOrEmpty (setup (helloTest None))) None
                      (effectiveTimeout (helloTest None))
              = (captured, ExitEvent (Some 0%Z) sig, w2)
     else w2 = w1) /\
    demoHrtime w2 = (stop, w3) /\
    demoSpawn w3 (run_ (helloTest None))
              (if strTruthy (input (helloTest None)) then input (helloTest None) else None)
              (effectiveTimeout (helloTest None)
               - inject_Z (elapsedMs (hrtimeDiff start stop)))%Q
      = (js "Hello world" ++ [LF], ExitEvent (Some 0%Z) signal, 3000002000%Z).
Proof.
  split; [reflexivity|].
  apply (run_returns_only_after_exit_0 Z demoSpawn demoHrtime demoRegex
           0%Z 3000002000%Z (helloTest None) (js "Hello world" ++ [LF])).
  reflexivity.
Defined.

Lemma startsWith_refl (s : jsstring) : startsWith s s = true.
Proof.
  induction s as [|c s IH]; [reflexivity|]. simpl.
  rewrite bool_decide_eq_true_2 by reflexivity. assumption.
Qed.

Lemma includes_refl (s : jsstring) : includes s s = true.
Proof. destruct s; simpl; [reflexivity|]. rewrite startsWith_refl. simpl.
  rewrite bool_decide_eq_true_2 by reflexivity. reflexivity. Qed.

(** X13: a test that passes in the mode 'exact' also passes, with the same
    result, in the mode 'included' and in the default mode. *)
Theorem exact_pass_implies_included_pass
    (World : Type)
    (spawn : World -> jsstring -> option jsstring -> Q -> jsstring * ChildEvent * World)
    (regexMatch : jsstring -> jsstring -> option bool)
    (w w' : World) (test : Test) (timeoutMs : Q) (out : jsstring) :
  runCommand World spawn regexMatch w (withComparison test (Some Exact)) timeoutMs
    = (inr out, w') ->
  runCommand World spawn regexMatch w (withComparison test (Some Included)) timeoutMs
    = (inr out, w') /\
  runCommand World spawn regexMatch w (withComparison test None) timeoutMs
    = (inr out, w').
Proof.
  unfold runCommand. cbn [withComparison run_ input output].
  destruct (spawn w (run_ test) (if strTruthy (input test) then input test else None)
              timeoutMs) as [[captured ev] w4].
  destruct (waitForExit captured ev timeoutMs) as [e|[]]; [discriminate|].
  destruct (negb (strTruthy (output test)) && negb (strTruthy (input test)));
    [tauto|].
  unfold compareOutput. cbn [withComparison comparison output name].
  unfold strEq.
  destruct (decide (normalizeLineEndings captured
                    = normalizeLineEndings (strOrEmpty (output test)))) as [E|E].
  - rewrite (bool_decide_eq_true_2 _ E), E, includes_refl. simpl.
    intros H. split; exact H.
  - rewrite bool_decide_eq_false_2 by assumption. simpl. discriminate.
Qed.

Lemma exact_pass_implies_included_pass_witness :
  runCommand Z demoSpawn demoRegex 0%Z
             (withComparison (withOutput (helloTest None) (js "Hello world"))
                             (Some Exact)) 60000%Q
    = (inr (js "Hello world" ++ [LF]), 1500000000%Z) /\
  runCommand Z demoSpawn demoRegex 0%Z
             (withComparison (withOutput (helloTest None) (js "Hello world"))
                             (Some Included)) 60000%Q
    = (inr (js "Hello world" ++ [LF]), 1500000000%Z) /\
  runCommand Z demoSpawn demoRegex 0%Z
             (withComparison (withOutput (helloTest None) (js "Hello world")) None)
             60000%Q
    = (inr (js "Hello world" ++ [LF]), 1500000000%Z).
Proof.
  split; [reflexivity|].
  apply (exact_pass_implies_included_pass Z demoSpawn demoRegex 0%Z 1500000000%Z
           (withOutput (helloTest None) (js "Hello world")) 60000%Q
           (js "Hello world" ++ [LF])).
  reflexivity.
Defined.

(** ** The marker line *)

Lemma diffLine_lookup (actual expected : jsstring) j :
  j < length expected ->
  exists b, (b = true <-> actual !! j = expected !! j) /\
            diffLine actual expected !! j
            = Some (if b then "_"%char else "^"%char).
Proof.
  intros Hj. exists (charEq (actual !! j) (expected !! j)).
  split; [apply charEq_true|].
  unfold diffLine, jsstring.
  rewrite list_lookup_fmap, (lookup_seq_lt 0 (length expected) j Hj). reflexivity.
Qed.

(** X14: the marker line of [compareLines] and [exactDiffMessage] has one
    marker for each character of the expected line, and it has no caret
    exactly when the actual line begins with the whole expected line: extra
    characters at the end of the actual line are not marked. *)
Theorem diffLine_carets (actual expected : jsstring) :
  length (diffLine actual expected) = length expected /\
  ((forall c, In c (diffLine actual expected) -> c = "_"%char) <->
   exists rest, actual = expected ++ rest).
Proof.
  split; [unfold diffLine; rewrite length_map, length_seq; reflexivity|].
  split.
  - intros Hall. exists (drop (length expected) actual).
    rewrite <- (take_drop (length expected) actual) at 1. f_equal.
    apply list_eq. intros j. rewrite lookup_take.
    destruct (decide (j < length expected)) as [Hj|Hj].
    + destruct (diffLine_lookup actual expected j Hj) as ([|] & Hb & Hl).
      * apply Hb. reflexivity.
      * assert (Hin : In "^"%char (diffLine actual expected))
          by (apply list_elem_of_In; eapply list_elem_of_lookup_2; exact Hl).
        specialize (Hall _ Hin). discriminate.
    + symmetry. apply lookup_ge_None. lia.
  - intros [rest ->] c Hin.
    apply list_elem_of_In in Hin. apply list_elem_of_lookup_1 in Hin as [j Hj].
    assert (Hlt : j < length expected).
    { apply lookup_lt_Some in Hj. unfold diffLine in Hj.
      rewrite length_map, length_seq in Hj. exact Hj. }
    destruct (diffLine_lookup (expected ++ rest) expected j Hlt) as ([|] & Hb & Hl).
    + pose proof (eq_trans (eq_sym Hl) Hj) as He. injection He as <-. reflexivity.
    + exfalso. assert (Hf : false = true); [|discriminate].
      apply Hb. apply (lookup_app_l expected rest j Hlt).
Qed.

(** ** Normalization *)

Lemma trimStart_ws (x : jsstring) :
  forallb isWhiteSpace x = true -> trimStart x = [].
Proof.
  induction x as [|c x IH]; [reflexivity|]. simpl.
  intros H. apply andb_prop in H as [Hc Hx]. rewrite Hc. apply IH. assumption.
Qed.

Lemma trimStart_snoc (x : jsstring) (w : ascii) :
  isWhiteSpace w = true ->
  trimStart (x ++ [w]) = if forallb isWhiteSpace x then [] else trimStart x ++ [w].
Proof.
  intros Hw. induction x as [|c x IH]; simpl.
  - rewrite Hw. reflexivity.
  - destruct (isWhiteSpace c); simpl; [assumption | reflexivity].
Qed.

Lemma trimEnd_snoc (y : jsstring) (w : ascii) :
  isWhiteSpace w = true -> trimEnd (y ++ [w]) = trimEnd y.
Proof.
  intros Hw. unfold trimEnd. rewrite rev_unit. simpl. rewrite Hw. reflexivity.
Qed.

Lemma trim_snoc (x : jsstring) (w : ascii) :
  isWhiteSpace w = true -> trim (x ++ [w]) = trim x.
Proof.
  intros Hw. unfold trim. rewrite (trimStart_snoc x w Hw).
  destruct (forallb isWhiteSpace x) eqn:E.
  - rewrite (trimStart_ws x E). reflexivity.
  - apply trimEnd_snoc. assumption.
Qed.

Lemma trim_cons (x : jsstring) (w : ascii) :
  isWhiteSpace w = true -> trim (w :: x) = trim x.
Proof. intros Hw. unfold trim. simpl. rewrite Hw. reflexivity. Qed.

Lemma replaceCRLF_cons2 c d r :
  replaceCRLF (c :: d :: r) =
  if bool_decide (c = CR) && bool_decide (d = LF)
  then LF :: replaceCRLF r else c :: replaceCRLF (d :: r).
Proof. reflexivity. Qed.

Lemma replaceCRLF_cons_other c s :
  c <> CR -> replaceCRLF (c :: s) = c :: replaceCRLF s.
Proof.
  intros Hc. destruct s as [|d r]; [reflexivity|].
  rewrite replaceCRLF_cons2, (bool_decide_eq_false_2 _ Hc). reflexivity.
Qed.

Lemma isWhiteSpace_CR : isWhiteSpace CR = true.
Proof. reflexivity. Qed.

Lemma isWhiteSpace_LF : isWhiteSpace LF = true.
Proof. reflexivity. Qed.

(** A white space at the end of a text stays a white space at the end of
    the text with its [\r\n] replaced, up to a [\r] that the white space
    completes to a line break. *)
Lemma replaceCRLF_snoc_ws (w : ascii) :
  isWhiteSpace w = true ->
  forall n s, length s < n ->
  exists r w', isWhiteSpace w' = true /\
    replaceCRLF (s ++ [w]) = r ++ [w'] /\
    (replaceCRLF s = r \/ replaceCRLF s = r ++ [CR]).
Proof.
  intros Hw. induction n as [|n IH]; intros s Hlen; [lia|].
  destruct s as [|c [|d r']].
  - exists [], w. split; [assumption|]. split; [reflexivity|]. left. reflexivity.
  - simpl app. rewrite replaceCRLF_cons2.
    destruct (bool_decide (c = CR) && bool_decide (w = LF)) eqn:E.
    + apply andb_prop in E as [Ec _]. apply bool_decide_eq_true in Ec. subst c.
      exists [], LF. split; [reflexivity|]. split; [reflexivity|]. right. reflexivity.
    + exists [c], w. split; [assumption|]. split; [reflexivity|]. left. reflexivity.
  - simpl app. rewrite !replaceCRLF_cons2.
    destruct (bool_decide (c = CR) && bool_decide (d = LF)).
    + destruct (IH r') as (r & w' & Hw' & E1 & E2); [simpl in Hlen; lia|].
      exists (LF :: r), w'. rewrite E1. split; [assumption|]. split; [reflexivity|].
      destruct E2 as [-> | ->]; [left | right]; reflexivity.
    + destruct (IH (d :: r')) as (r & w' & Hw' & E1 & E2); [simpl in *; lia|].
      simpl app in E1. exists (c :: r), w'. rewrite E1.
      split; [assumption|]. split; [reflexivity|].
      destruct E2 as [-> | ->]; [left | right]; reflexivity.
Qed.

Lemma normalize_snoc_ws (s : jsstring) (w : ascii) :
  isWhiteSpace w = true ->
  normalizeLineEndings (s ++ [w]) = normalizeLineEndings s.
Proof.
  intros Hw. unfold normalizeLineEndings.
  destruct (replaceCRLF_snoc_ws w Hw (S (length s)) s) as (r & w' & Hw' & E1 & E2); [lia|].
  rewrite E1, (trim_snoc r w' Hw').
  destruct E2 as [-> | ->]; [reflexivity|].
  rewrite (trim_snoc r CR isWhiteSpace_CR). reflexivity.
Qed.

Lemma normalize_cons_ws (s : jsstring) (w : ascii) :
  isWhiteSpace w = true ->
  normalizeLineEndings (w :: s) = normalizeLineEndings s.
Proof.
  intros Hw. unfold normalizeLineEndings. destruct s as [|d r].
  - simpl. unfold trim. simpl. rewrite Hw. reflexivity.
  - rewrite replaceCRLF_cons2.
    destruct (bool_decide (w = CR) && bool_decide (d = LF)) eqn:E.
    + apply andb_prop in E as [_ Ed]. apply bool_decide_eq_true in Ed. subst d.
      rewrite (replaceCRLF_cons_other LF r) by discriminate. reflexivity.
    + apply trim_cons. assumption.
Qed.

(** X15: white space around a text, line breaks included, does not change
    what [normalizeLineEndings] makes of it. *)
Theorem normalizeLineEndings_ignores_surrounding_space (pre s post : jsstring) :
  forallb isWhiteSpace pre = true ->
  forallb isWhiteSpace post = true ->
  normalizeLineEndings (pre ++ s ++ post) = normalizeLineEndings s.
Proof.
  intros Hpre Hpost.
  assert (Hend : forall x, normalizeLineEndings (x ++ post) = normalizeLineEndings x).
  { induction post as [|w post IH] using rev_ind; intros x.
    - rewrite app_nil_r. reflexivity.
    - rewrite forallb_app in Hpost. apply andb_prop in Hpost as [Hp Hw].
      simpl in Hw. rewrite andb_true_r in Hw.
      rewrite app_assoc, (normalize_snoc_ws _ w Hw). apply IH. assumption. }
  induction pre as [|w pre IH].
  - simpl. apply Hend.
  - simpl in Hpre. apply andb_prop in Hpre as [Hw Hp].
    simpl. rewrite (normalize_cons_ws _ w Hw). apply IH. assumption.
Qed.

Lemma normalizeLineEndings_ignores_surrounding_space_witness :
  forallb isWhiteSpace (js "  " ++ [CR; LF]) = true /\
  forallb isWhiteSpace [LF; LF] = true /\
  normalizeLineEndings ((js "  " ++ [CR; LF]) ++ js "Hello world" ++ [LF; LF])
    = normalizeLineEndings (js "Hello world").
Proof.
  split; [reflexivity|]. split; [reflexivity|].
  apply normalizeLineEndings_ignores_surrounding_space; reflexivity.
Defined.

Lemma replaceCRLF_line (l rest : jsstring) :
  ~ In CR l ->
  replaceCRLF (l ++ CR :: LF :: rest) = l ++ LF :: replaceCRLF rest /\
  replaceCRLF (l ++ LF :: rest) = l ++ LF :: replaceCRLF rest /\
  replaceCRLF l = l.
Proof.
  induction l as [|c l IH]; intros Hno.
  - simpl app. split; [reflexivity|]. split; [|reflexivity].
    apply replaceCRLF_cons_other. discriminate.
  - assert (Hc : c <> CR) by (intros ->; apply Hno; left; reflexivity).
    destruct IH as (H1 & H2 & H3); [intros Hin; apply Hno; right; assumption|].
    simpl app. rewrite !(replaceCRLF_cons_other c) by assumption.
    rewrite H1, H2, H3. repeat split; reflexivity.
Qed.

Lemma replaceCRLF_joinWith (lines : list jsstring) :
  Forall (fun l => ~ In CR l) lines ->
  replaceCRLF (joinWith [CR; LF] lines) = joinWith [LF] lines /\
  replaceCRLF (joinWith [LF] lines) = joinWith [LF] lines.
Proof.
  induction lines as [|l [|l' rest] IH]; intros H.
  - split; reflexivity.
  - inversion H as [|? ? Hl _]; subst. simpl.
    destruct (replaceCRLF_line l [] Hl) as (_ & _ & E). tauto.
  - inversion H as [|? ? Hl Hrest]; subst.
    destruct (IH Hrest) as [E1 E2].
    change (joinWith [CR; LF] (l :: l' :: rest))
      with (l ++ CR :: LF :: joinWith [CR; LF] (l' :: rest)).
    change (joinWith [LF] (l :: l' :: rest))
      with (l ++ LF :: joinWith [LF] (l' :: rest)).
    destruct (replaceCRLF_line l (joinWith [CR; LF] (l' :: rest)) Hl) as (A1 & _ & _).
    destruct (replaceCRLF_line l (joinWith [LF] (l' :: rest)) Hl) as (_ & A2 & _).
    rewrite A1, A2, E1, E2. split; reflexivity.
Qed.

(** X16: lines joined by [\r\n] normalize to the same text as the same
    lines joined by [\n], when no line holds a [\r] of its own. *)
Theorem normalizeLineEndings_CRLF_as_LF (lines : list jsstring) :
  Forall (fun l => ~ In CR l) lines ->
  normalizeLineEndings (joinWith [CR; LF] lines)
    = normalizeLineEndings (joinWith [LF] lines) /\
  normalizeLineEndings (joinWith [LF] lines) = trim (joinWith [LF] lines).
Proof.
  intros H. unfold normalizeLineEndings.
  destruct (replaceCRLF_joinWith lines H) as [E1 E2].
  rewrite E1, E2. split; reflexivity.
Qed.

Lemma normalizeLineEndings_CRLF_as_LF_witness :
  Forall (fun l => ~ In CR l) [js "Hello"; js "world"; []] /\
  normalizeLineEndings (joinWith [CR; LF] [js "Hello"; js "world"; []])
    = normalizeLineEndings (joinWith [LF] [js "Hello"; js "world"; []]) /\
  normalizeLineEndings (joinWith [LF] [js "Hello"; js "world"; []])
    = trim (joinWith [LF] [js "Hello"; js "world"; []]).
Proof.
  assert (H : Forall (fun l => ~ In CR l) [js "Hello"; js "world"; []]).
  { repeat constructor; simpl; intros Hin;
      repeat (destruct Hin as [Hin|Hin]; [discriminate|]); exact Hin. }
  split; [exact H|].
  exact (normalizeLineEndings_CRLF_as_LF [js "Hello"; js "world"; []] H).
Defined.

(** ** The line of the closest match *)

Lemma splitLines_nonempty (s : jsstring) : splitLines s <> [].
Proof.
  destruct s as [|c [|d r]]; simpl; try discriminate.
  - destruct (bool_decide (c = LF)); discriminate.
  - destruct (bool_decide (c = LF)); [discriminate|].
    destruct (bool_decide (c = CR) && bool_decide (d = LF)); [discriminate|].
    destruct (if bool_decide (d = LF) then _ else _); discriminate.
Qed.

Lemma splitLines_cons2 c d r :
  splitLines (c :: d :: r) =
  if bool_decide (c = LF) then [] :: splitLines (d :: r)
  else if bool_decide (c = CR) && bool_decide (d = LF) then [] :: splitLines r
  else match splitLines (d :: r) with
       | l :: ls => (c :: l) :: ls
       | [] => [[c]]
       end.
Proof. reflexivity. Qed.

Lemma stripLineBreaks_cons2 c d r :
  stripLineBreaks (c :: d :: r) =
  if bool_decide (c = LF) then stripLineBreaks (d :: r)
  else if bool_decide (c = CR) && bool_decide (d = LF) then stripLineBreaks r
  else c :: stripLineBreaks (d :: r).
Proof. reflexivity. Qed.

(** The lines of a text, put end to end, are the text without its line
    breaks. *)
Lemma concat_splitLines : forall n (s : jsstring),
  length s < n -> concat (splitLines s) = stripLineBreaks s.
Proof.
  induction n as [|n IH]; intros s Hlen; [lia|].
  destruct s as [|c [|d r]].
  - reflexivity.
  - simpl. destruct (bool_decide (c = LF)); reflexivity.
  - rewrite splitLines_cons2, stripLineBreaks_cons2.
    destruct (bool_decide (c = LF)).
    + rewrite concat_cons, app_nil_l. apply IH. simpl in *. lia.
    + destruct (bool_decide (c = CR) && bool_decide (d = LF)).
      * rewrite concat_cons, app_nil_l. apply IH. simpl in *. lia.
      * rewrite <- (IH (d :: r)) by (simpl in *; lia).
        destruct (splitLines (d :: r)) as [|l ls] eqn:E.
        -- exfalso. exact (splitLines_nonempty _ E).
        -- reflexivity.
Qed.

Lemma indexOfFrom_bound (p : jsstring) : forall (s : jsstring) i k,
  indexOfFrom s p i = Some k -> i <= k /\ k + length p <= i + length s.
Proof.
  assert (Hsw : forall (s : jsstring), startsWith s p = true -> length p <= length s).
  { induction p as [|c p IHp]; intros s H; [simpl; lia|].
    destruct s as [|d s]; simpl in H; [discriminate|].
    apply andb_prop in H as [_ H]. apply IHp in H. simpl. lia. }
  induction s as [|c s IH]; intros i k H.
  - change (indexOfFrom [] p i) with (if startsWith [] p then Some i else None) in H.
    destruct (startsWith [] p) eqn:E; [|discriminate].
    injection H as <-. apply Hsw in E. lia.
  - change (indexOfFrom (c :: s) p i)
      with (if startsWith (c :: s) p then Some i else indexOfFrom s p (S i)) in H.
    destruct (startsWith (c :: s) p) eqn:E.
    + injection H as <-. apply Hsw in E. lia.
    + apply IH in H. simpl. lia.
Qed.

Lemma indexOf_bound (s p : jsstring) :
  (-1 <= indexOf s p <= Z.of_nat (length s))%Z.
Proof.
  unfold indexOf. destruct (indexOfFrom s p 0) as [k|] eqn:E; [|lia].
  apply indexOfFrom_bound in E. lia.
Qed.

Lemma charsBefore_S (ls : list jsstring) k line :
  ls !! k = Some line ->
  charsBefore ls (S k) = (charsBefore ls k + Z.of_nat (length line))%Z.
Proof.
  intros H. unfold charsBefore.
  rewrite (take_S_r ls k line H), concat_app, length_app. simpl.
  rewrite app_nil_r. lia.
Qed.

Lemma charsBefore_all (ls : list jsstring) k :
  length ls <= k -> charsBefore ls k = Z.of_nat (length (concat ls)).
Proof. intros H. unfold charsBefore. rewrite take_ge by lia. reflexivity. Qed.

Lemma locateLine_S fuel (ls : list jsstring) idx charCount currLine :
  locateLine (S fuel) ls idx charCount currLine =
  if (charCount <? idx)%Z then
    match ls !! (currLine - 1) with
    | None => None
    | Some line =>
        locateLine fuel ls idx (charCount + Z.of_nat (length line))%Z (S currLine)
    end
  else Some currLine.
Proof. reflexivity. Qed.

(** The loop from the round in which [currLine] is [S k]. *)
Lemma locateLine_from (ls : list jsstring) (idx : Z) : forall fuel k,
  (idx <= Z.of_nat (length (concat ls)))%Z ->
  k <= length ls -> length ls - k < fuel ->
  exists n,
    locateLine fuel ls idx (charsBefore ls k) (S k) = Some (S n) /\
    k <= n <= length ls /\
    (idx <= charsBefore ls n)%Z /\
    (k < n -> (charsBefore ls (n - 1) < idx)%Z).
Proof.
  induction fuel as [|fuel IH]; intros k Hidx Hk Hfuel; [lia|].
  rewrite locateLine_S.
  destruct (charsBefore ls k <? idx)%Z eqn:E.
  - apply Z.ltb_lt in E.
    assert (Hlt : k < length ls).
    { destruct (decide (k < length ls)); [assumption|].
      rewrite charsBefore_all in E by lia. lia. }
    replace (S k - 1) with k by lia.
    destruct (ls !! k) as [line|] eqn:Hline;
      [|apply lookup_ge_None in Hline; unfold jsstring in *; lia].
    rewrite <- (charsBefore_S ls k line Hline).
    destruct (IH (S k)) as (n & Hn & Hr & Hge & Hprev); [assumption | lia | lia |].
    exists n. split; [assumption|]. split; [lia|]. split; [assumption|].
    intros _. destruct (decide (S k < n)) as [Hs|Hs]; [apply Hprev; assumption|].
    replace (n - 1) with k by lia. assumption.
  - apply Z.ltb_ge in E. exists k. split; [reflexivity|]. split; [lia|].
    split; [assumption | lia].
Qed.

(** X17: the search for the line of the closest match in
    [includedDiffMessage] never reads past the lines of the output.  It
    reports line 1 when the match is at index 0 or is not found; otherwise it
    reports one more than the least number of leading lines that hold as
    many characters as the index of the match, which is at most one more
    than the number of lines. *)
Theorem closestLine_reported (actual closest : jsstring) :
  let actualLines := splitLines actual in
  let closestIndex := indexOf (stripLineBreaks actual) closest in
  exists n,
    closestLine actual closest = Some (S n) /\
    n <= length actualLines /\
    (closestIndex <= charsBefore actualLines n)%Z /\
    (0 < n -> (charsBefore actualLines (n - 1) < closestIndex)%Z) /\
    ((closestIndex <= 0)%Z -> n = 0).
Proof.
  intros actualLines closestIndex. unfold closestLine.
  fold actualLines. fold closestIndex.
  destruct (locateLine_from actualLines closestIndex (S (length actualLines)) 0)
    as (n & Hn & Hr & Hge & Hprev).
  - unfold actualLines.
    rewrite (concat_splitLines (S (length actual)) actual) by lia.
    apply indexOf_bound.
  - lia.
  - lia.
  - change (charsBefore actualLines 0) with 0%Z in Hn.
    exists n. split; [assumption|]. split; [lia|]. split; [assumption|].
    split; [assumption|].
    intros H0. destruct n as [|n]; [reflexivity|].
    assert (Hp : (charsBefore actualLines (S n - 1) < closestIndex)%Z)
      by (apply Hprev; lia).
    unfold charsBefore in Hp. lia.
Qed.

(** X18: when the setup command of a test does not exit with code 0, [run]
    fails with the error of the setup: a timeout that carries the whole
    budget, the exit code and signal, or the error of the child.  The world
    is left as the setup command left it: the clock is not read again and
    the run command is not spawned. *)
Theorem run_fails_with_setup
    (World : Type)
    (spawn : World -> jsstring -> option jsstring -> Q -> jsstring * ChildEvent * World)
    (hrtime : World -> Z * World)
    (regexMatch : jsstring -> jsstring -> option bool)
    (w w1 w2 : World) (test : Test) (start : Z)
    (captured : jsstring) (ev : ChildEvent) :
  strTruthy (setup test) = true ->
  hrtime w = (start, w1) ->
  spawn w1 (strOrEmpty (setup test)) None (effectiveTimeout test) = (captured, ev, w2) ->
  (forall signal, ev <> ExitEvent (Some 0%Z) signal) ->
  run World spawn hrtime regexMatch w test =
  (inl match ev with
       | TimerFired => TestTimeoutError captured (effectiveTimeout test)
       | ExitEvent code signal => TestExitError captured code signal
       | ErrorEvent message => ChildError captured message
       end, w2).
Proof.
  intros Hsetup Hstart Hspawn Hev.
  unfold run, runSetup. rewrite Hstart, Hsetup. cbn [negb]. rewrite Hspawn.
  destruct ev as [[[| |]|] signal|message|]; cbn [waitForExit]; try reflexivity.
  exfalso. exact (Hev signal eq_refl).
Qed.

Lemma run_fails_with_setup_witness :
  strTruthy (setup (withSetup (helloTest None) (js "false"))) = true /\
  demoHrtime 0%Z = (0%Z, 1000%Z) /\
  demoSpawn 1000%Z (strOrEmpty (setup (withSetup (helloTest None) (js "false")))) None
            (effectiveTimeout (withSetup (helloTest None) (js "false")))
    = ([], ExitEvent (Some 1%Z) None, 1500001000%Z) /\
  (forall signal, ExitEvent (Some 1%Z) None <> ExitEvent (Some 0%Z) signal) /\
  run Z demoSpawn demoHrtime demoRegex 0%Z (withSetup (helloTest None) (js "false"))
    = (inl (TestExitError [] (Some 1%Z) None), 1500001000%Z).
Proof.
  split; [reflexivity|]. split; [reflexivity|]. split; [reflexivity|].
  split; [discriminate|].
  apply (run_fails_with_setup Z demoSpawn demoHrtime demoRegex 0%Z 1000%Z 1500001000%Z
           (withSetup (helloTest None) (js "false")) 0%Z [] (ExitEvent (Some 1%Z) None));
    [reflexivity | reflexivity | reflexivity | discriminate].
Defined.
